(** * Copilot SDK (Node.js client): sessions, dispatch bridge and target resolution

    A shallow embedding of [nodejs/src/session.ts] and [nodejs/src/types.ts],
    together with a model of the client runtime described by the specification
    and exercised by [nodejs/test/client.test.ts].

    Conventions:
    - a JavaScript promise is a value of [Promise]: it settles (fulfilled or
      rejected) or never settles;
    - an [async] method of [CopilotSession] is a function from the session
      object to the updated session object and the promise it returns;
    - thrown values are represented by their message. *)

From Stdlib Require Import String Ascii ZArith Lia.
From Stdlib Require Import Decimal DecimalString DecimalZ DecimalNat.
From stdpp Require Import base option list gmap strings.

Local Open Scope string_scope.
Local Open Scope list_scope.
Local Open Scope stdpp_scope.

(** ** Promises and calls *)

Inductive Settled (A : Type) : Type :=
| Fulfilled (v : A)
| Rejected (e : string).
Arguments Fulfilled {A} v.
Arguments Rejected {A} e.

Inductive Promise (A : Type) : Type :=
| Settles (r : Settled A)
| NeverSettles.
Arguments Settles {A} r.
Arguments NeverSettles {A}.

(** What calling a handler of type [(…) => Promise<T> | T] can do. *)
Inductive CallResult (A : Type) : Type :=
| Returns (v : A)
| ReturnsPromise (p : Promise A)
| Throws (e : string).
Arguments Returns {A} v.
Arguments ReturnsPromise {A} p.
Arguments Throws {A} e.

(** [await f(x)] seen from inside a [try] block or an [async] body. *)
Definition awaited {A} (c : CallResult A) : Promise A :=
  match c with
  | Returns v => Settles (Fulfilled v)
  | ReturnsPromise p => p
  | Throws e => Settles (Rejected e)
  end.

Definition resolve {A} (v : A) : Promise A := Settles (Fulfilled v).
Definition reject {A} (e : string) : Promise A := Settles (Rejected e).

(** ** types.ts *)

Module Types.

(** [unknown]: an opaque JSON value, kept in serialised form. *)
Definition unknown : Type := string.

(** Modelled from the spec: the generated module
    [./generated/session-events.js] is not part of the sources; a session
    event is a tagged value, the tag being its [type]. *)
Record SessionEvent : Type := mkEvent {
  type : string;
  data : unknown
}.

Inductive ConnectionState : Type :=
| disconnected | connecting | connected | error.

Inductive ToolResultType : Type :=
| success | failure | rejected | denied.

Record ToolResultObject : Type := mkToolResult {
  textResultForLlm : string;
  resultType : ToolResultType;
  error_ : option string
}.

Inductive ToolResult : Type :=
| ResultText (s : string)
| ResultObject (o : ToolResultObject).

Record ToolInvocation : Type := mkInvocation {
  inv_sessionId : string;
  inv_toolCallId : string;
  inv_toolName : string;
  inv_arguments : unknown
}.

(** [(args, invocation) => Promise<unknown> | unknown] *)
Definition ToolHandler : Type :=
  unknown -> ToolInvocation -> CallResult unknown.

Record Tool : Type := mkTool {
  name : string;
  description : option string;
  parameters : option unknown;
  handler : ToolHandler
}.

(** The [config] argument of [defineTool].  Its declared type has
    [description], [parameters] and [handler]; an object passed for it may
    carry a [name] property of its own, which the spread copies too. *)
Record ToolConfig : Type := mkToolConfig {
  tool_name : option string;
  tool_description : option string;
  tool_parameters : option unknown;
  tool_handler : ToolHandler
}.

(** [defineTool(name, config)], that is [{ name, ...config }]: the
    properties of [config] come after [name] and win over it. *)
Definition defineTool (name : string) (config : ToolConfig) : Tool :=
  mkTool (default name (tool_name config)) (tool_description config)
    (tool_parameters config) (tool_handler config).

Record ToolCallRequestPayload : Type := mkToolCall {
  sessionId : string;
  toolCallId : string;
  toolName : string;
  arguments : unknown
}.

Record ToolCallResponsePayload : Type := mkToolResponse {
  result : ToolResult
}.

Inductive PermissionKind : Type :=
| shell | write | mcp | read | url.

Record PermissionRequest : Type := mkPermissionRequest {
  req_kind : PermissionKind;
  req_toolCallId : option string
}.

Inductive PermissionResultKind : Type :=
| approved
| denied_by_rules
| denied_no_approval_rule_and_could_not_request_from_user
| denied_interactively_by_user.

Record PermissionRequestResult : Type := mkPermissionResult {
  kind : PermissionResultKind;
  rules : option (list unknown)
}.

(** [(request, invocation: { sessionId }) => Promise<R> | R] *)
Definition PermissionHandler : Type :=
  PermissionRequest -> string -> CallResult PermissionRequestResult.

Record CopilotClientOptions : Type := mkOptions {
  cliPath : option string;
  port : option Z;
  useStdio : option bool;
  cliUrl : option string;
  autoStart : option bool;
  autoRestart : option bool
}.

Record MessageOptions : Type := mkMessage {
  prompt : string;
  mode : option string
}.

End Types.

(** ** JavaScript [Set] of event handlers

    A [Set] keeps its entries in insertion order.  [delete] and [clear]
    overwrite entries with the [empty] marker, [add] appends when the value
    is absent; an iterator walks the entry list by index and skips the
    markers, so it sees what the loop body adds or removes.  Functions are
    compared by identity, which a [HandlerId] stands for. *)

Module JSSet.

Definition HandlerId : Type := nat.

Definition t : Type := list (option HandlerId).

Definition empty : t := [].

Definition has (h : HandlerId) (s : t) : bool :=
  bool_decide (Some h ∈ s).

Definition add (h : HandlerId) (s : t) : t :=
  if has h s then s else s ++ [Some h].

Definition delete (h : HandlerId) (s : t) : t :=
  (λ e, if bool_decide (e = Some h) then None else e) <$> s.

Definition clear (s : t) : t := (λ _, None) <$> s.

(** The values of the set, in iteration order. *)
Definition values (s : t) : list HandlerId := omap id s.

End JSSet.

(** ** session.ts *)

Module Session.
Import Types.

(** [MessageConnection] of vscode-jsonrpc: only [sendRequest] is used; the
    reply to a request is decided by the peer. *)
Record MessageConnection : Type := mkConnection {
  sendRequest : string -> string -> Promise unknown
}.

Record CopilotSession : Type := mkSession {
  sessionId : string;
  connection : MessageConnection;
  eventHandlers : JSSet.t;
  toolHandlers : gmap string ToolHandler;
  permissionHandler : option PermissionHandler
}.

(** [new CopilotSession(sessionId, connection)] *)
Definition new (sid : string) (conn : MessageConnection) : CopilotSession :=
  {| sessionId := sid; connection := conn; eventHandlers := JSSet.empty;
     toolHandlers := ∅; permissionHandler := None |}.

(** *** Bodies of [async] methods *)

Definition Async (A : Type) : Type :=
  CopilotSession -> CopilotSession * Promise A.

Definition ret {A} (v : A) : Async A := λ s, (s, resolve v).

Definition bind {A B} (m : Async A) (k : A -> Async B) : Async B :=
  λ s, match m s with
       | (s', Settles (Fulfilled v)) => k v s'
       | (s', Settles (Rejected e)) => (s', Settles (Rejected e))
       | (s', NeverSettles) => (s', NeverSettles)
       end.

Definition await {A} (p : CopilotSession -> Promise A) : Async A :=
  λ s, (s, p s).

Definition update (f : CopilotSession -> CopilotSession) : Async unit :=
  λ s, (f s, resolve tt).

Definition try_catch {A} (body : Async A) (handler : string -> Async A)
  : Async A :=
  λ s, match body s with
       | (s', Settles (Rejected e)) => handler e s'
       | r => r
       end.

Notation "'let*' x ':=' m 'in' k" := (bind m (λ x, k))
  (at level 10, x name, m at level 100, k at level 200).
Notation "m '>>>' k" := (bind m (λ _, k))
  (at level 65, right associativity).

(** *** [on] and its unsubscribe closure *)

Definition set_eventHandlers (f : JSSet.t -> JSSet.t) (s : CopilotSession)
  : CopilotSession :=
  {| sessionId := sessionId s; connection := connection s;
     eventHandlers := f (eventHandlers s);
     toolHandlers := toolHandlers s;
     permissionHandler := permissionHandler s |}.

Definition on (h : JSSet.HandlerId) : CopilotSession -> CopilotSession :=
  set_eventHandlers (JSSet.add h).

Definition unsubscribe (h : JSSet.HandlerId)
  : CopilotSession -> CopilotSession :=
  set_eventHandlers (JSSet.delete h).

(** *** [registerTools], [getToolHandler], [registerPermissionHandler] *)

Definition set_toolHandlers (m : gmap string ToolHandler)
  (s : CopilotSession) : CopilotSession :=
  {| sessionId := sessionId s; connection := connection s;
     eventHandlers := eventHandlers s;
     toolHandlers := m;
     permissionHandler := permissionHandler s |}.

Definition registerTools (tools : option (list Tool)) (s : CopilotSession)
  : CopilotSession :=
  match tools with
  | None => set_toolHandlers ∅ s
  | Some ts =>
      set_toolHandlers
        (foldl (λ m tool, <[name tool := handler tool]> m) ∅ ts) s
  end.

Definition getToolHandler (name : string) (s : CopilotSession)
  : option ToolHandler :=
  toolHandlers s !! name.

Definition registerPermissionHandler (h : option PermissionHandler)
  (s : CopilotSession) : CopilotSession :=
  {| sessionId := sessionId s; connection := connection s;
     eventHandlers := eventHandlers s;
     toolHandlers := toolHandlers s;
     permissionHandler := h |}.

(** *** [_handlePermissionRequest] *)

Definition denial : PermissionRequestResult :=
  {| kind := denied_no_approval_rule_and_could_not_request_from_user;
     rules := None |}.

Definition _handlePermissionRequest (request : PermissionRequest)
  : Async PermissionRequestResult :=
  λ s, match permissionHandler s with
       | None => ret denial s
       | Some h =>
           try_catch
             (let* result :=
                await (λ s, awaited (h request (sessionId s))) in
              ret result)
             (λ _error, ret denial) s
       end.

(** *** [destroy] *)

Definition clear_local (s : CopilotSession) : CopilotSession :=
  {| sessionId := sessionId s; connection := connection s;
     eventHandlers := JSSet.clear (eventHandlers s);
     toolHandlers := ∅;
     permissionHandler := None |}.

Definition destroy : Async unit :=
  await (λ s, sendRequest (connection s) "session.destroy" (sessionId s)) >>>
  update clear_local.

(** [abort] *)
Definition abort : Async unit :=
  await (λ s, sendRequest (connection s) "session.abort" (sessionId s)) >>>
  ret tt.

(** *** [_dispatchEvent]

    What a handler does is decided outside the session: it reads and
    writes the application's own state, may call [session.on] or an
    unsubscribe closure of this session any number of times, and then
    returns or throws. *)

Inductive SetCall : Type :=
| CallOn (h : JSSet.HandlerId)
| CallUnsubscribe (h : JSSet.HandlerId).

Definition apply_call (hs : JSSet.t) (c : SetCall) : JSSet.t :=
  match c with
  | CallOn h => JSSet.add h hs
  | CallUnsubscribe h => JSSet.delete h hs
  end.

Definition apply_calls (cs : list SetCall) (hs : JSSet.t) : JSSet.t :=
  foldl apply_call hs cs.

Section Dispatch.
Variable World : Type.

Record HandlerRun : Type := mkRun {
  world_after : World;
  calls : list SetCall;
  thrown : option string
}.

Variable run_handler : JSSet.HandlerId -> SessionEvent -> World -> HandlerRun.

Record Dispatched : Type := mkDispatched {
  handlers_after : JSSet.t;
  world_end : World;
  invoked : list (JSSet.HandlerId * SessionEvent);
  raised : option string
}.

(** [try { handler(event); } catch (_error) { }]: what leaves the
    statement. *)
Definition guarded (r : HandlerRun) : option string :=
  match thrown r with
  | Some _error => None
  | None => None
  end.

(** [for (const handler of this.eventHandlers) …], the iterator being at
    entry [idx]; [None] when [fuel] entries were not enough. *)
Fixpoint dispatch_from (fuel idx : nat) (event : SessionEvent)
  (hs : JSSet.t) (w : World) (log : list (JSSet.HandlerId * SessionEvent))
  : option Dispatched :=
  match fuel with
  | O => None
  | S fuel' =>
      match hs !! idx with
      | None => Some (mkDispatched hs w log None)
      | Some None => dispatch_from fuel' (S idx) event hs w log
      | Some (Some h) =>
          let r := run_handler h event w in
          let hs' := apply_calls (calls r) hs in
          let log' := log ++ [(h, event)] in
          match guarded r with
          | Some e => Some (mkDispatched hs' (world_after r) log' (Some e))
          | None => dispatch_from fuel' (S idx) event hs' (world_after r) log'
          end
      end
  end.

Definition _dispatchEvent (fuel : nat) (event : SessionEvent)
  (s : CopilotSession) (w : World) : option Dispatched :=
  dispatch_from fuel 0 event (eventHandlers s) w [].

End Dispatch.

Arguments mkRun {World} _ _ _.
Arguments world_after {World} _.
Arguments calls {World} _.
Arguments thrown {World} _.
Arguments handlers_after {World} _.
Arguments world_end {World} _.
Arguments invoked {World} _.
Arguments raised {World} _.
Arguments guarded {World} _.
Arguments dispatch_from {World} _ _ _ _ _ _ _.
Arguments _dispatchEvent {World} _ _ _ _ _.

(** The subscribers in registration order, as an ordered set without
    repetition: what a sequence of [on] and unsubscribe calls leaves. *)
Definition subscribe_in_order (l : list JSSet.HandlerId) (c : SetCall)
  : list JSSet.HandlerId :=
  match c with
  | CallOn h => if bool_decide (h ∈ l) then l else l ++ [h]
  | CallUnsubscribe h => filter (λ x, x ≠ h) l
  end.

Definition subscribers_in_order (cs : list SetCall)
  : list JSSet.HandlerId :=
  foldl subscribe_in_order [] cs.

(** A handler that never touches the subscriber set, and one that calls its
    own unsubscribe closure each time it runs. *)
Definition quiet {World : Type}
  (run_handler : JSSet.HandlerId -> SessionEvent -> World -> HandlerRun World)
  (h : JSSet.HandlerId) : Prop :=
  forall e w, calls (run_handler h e w) = [].

Definition once {World : Type}
  (run_handler : JSSet.HandlerId -> SessionEvent -> World -> HandlerRun World)
  (h : JSSet.HandlerId) : Prop :=
  forall e w, calls (run_handler h e w) = [CallUnsubscribe h].

(** *** [sendAndWait]

    The method runs across several turns of the event loop.  Each
    [Occurrence] is one turn; the promise reactions it triggers run before
    the next one. *)

Record Closure : Type := mkClosure {
  sendStarted : bool;
  idleResolved : bool;
  lastAssistantMessage : option SessionEvent
}.

(** The listener passed to [this.on]; [resolveIdle()] sets [idleResolved]. *)
Definition listener (c : Closure) (event : SessionEvent) : Closure :=
  if sendStarted c then
    if String.eqb (type event) "assistant.message" then
      mkClosure (sendStarted c) (idleResolved c) (Some event)
    else if String.eqb (type event) "session.idle" then
      mkClosure (sendStarted c) true (lastAssistantMessage c)
    else c
  else c.

Inductive Occurrence : Type :=
| Invoke
| Notification (event : SessionEvent)
| SendSettled (r : Settled string)
| Elapse (ms : nat).

Inductive Phase : Type :=
| NotCalled
| AwaitingSend
| AwaitingIdle (timer : option nat)
| Done (r : Settled (option SessionEvent)).

Record Waiting : Type := mkWaiting {
  closure : Closure;
  subscribed : bool;
  phase : Phase;
  outbound : list string
}.

Definition decimal (n : nat) : string :=
  NilZero.string_of_uint (Nat.to_uint n).

Definition timeout_error (timeout : nat) : string :=
  "Timeout after " +:+ decimal timeout +:+ "ms waiting for session.idle".

Definition initial : Waiting :=
  mkWaiting (mkClosure false false None) false NotCalled [].

(** [finally { unsubscribe(); }] and the settlement of the returned promise. *)
Definition finish (r : Settled (option SessionEvent)) (st : Waiting)
  : Waiting :=
  mkWaiting (closure st) false (Done r) (outbound st).

(** From the declarations to [await this.send(options)]. *)
Definition invoke (st : Waiting) : Waiting :=
  let c := mkClosure false false None in
  let c := mkClosure true (idleResolved c) (lastAssistantMessage c) in
  mkWaiting c true AwaitingSend (outbound st ++ ["session.send"]).

(** The delay of the timer that [setTimeout(callback, ms)] creates in
    Node.js: a delay below 1 ms or above 2^31 - 1 ms is replaced by 1 ms. *)
Definition timer_delay (ms : nat) : nat :=
  if (N.of_nat ms <? 1)%N || (2147483647 <? N.of_nat ms)%N then 1 else ms.

(** After [await this.send(options)] returned: the timer is created and
    the idle promise is awaited (alone or in the race). *)
Definition after_send (timeout : option nat) (st : Waiting) : Waiting :=
  if idleResolved (closure st) then
    finish (Fulfilled (lastAssistantMessage (closure st))) st
  else
    mkWaiting (closure st) (subscribed st)
      (AwaitingIdle (timer_delay <$> timeout)) (outbound st).

Definition deliver (event : SessionEvent) (st : Waiting) : Waiting :=
  if subscribed st then
    mkWaiting (listener (closure st) event) (subscribed st) (phase st)
      (outbound st)
  else st.

Definition step (timeout : option nat) (st : Waiting) (o : Occurrence)
  : Waiting :=
  match phase st, o with
  | NotCalled, Invoke => invoke st
  | NotCalled, Notification event => deliver event st
  | AwaitingSend, Notification event => deliver event st
  | AwaitingSend, SendSettled (Fulfilled _messageId) => after_send timeout st
  | AwaitingSend, SendSettled (Rejected e) => finish (Rejected e) st
  | AwaitingIdle _, Notification event =>
      let st' := deliver event st in
      if idleResolved (closure st') then
        finish (Fulfilled (lastAssistantMessage (closure st'))) st'
      else st'
  | AwaitingIdle (Some remaining), Elapse ms =>
      if (remaining <=? ms)%nat then
        finish (Rejected (timeout_error (default 0 timeout))) st
      else
        mkWaiting (closure st) (subscribed st)
          (AwaitingIdle (Some (remaining - ms))) (outbound st)
  | _, _ => st
  end.

Definition sendAndWait (timeout : option nat) (trace : list Occurrence)
  : Waiting :=
  foldl (step timeout) initial trace.

(** *** What a trace contains *)

Definition is_assistant_message (e : SessionEvent) : bool :=
  String.eqb (type e) "assistant.message".

Definition is_idle (e : SessionEvent) : bool :=
  String.eqb (type e) "session.idle".

Definition notification (o : Occurrence) : option SessionEvent :=
  match o with Notification e => Some e | _ => None end.

Definition events_of (trace : list Occurrence) : list SessionEvent :=
  omap notification trace.

(** The most recent assistant message among the events. *)
Definition last_assistant (events : list SessionEvent)
  : option SessionEvent :=
  last (filter (λ e, is_assistant_message e = true) events).

Definition has_idle (events : list SessionEvent) : bool :=
  existsb is_idle events.

Fixpoint before_first_idle (events : list SessionEvent)
  : list SessionEvent :=
  match events with
  | [] => []
  | e :: rest => if is_idle e then [] else e :: before_first_idle rest
  end.

Definition is_settlement (o : Occurrence) : bool :=
  match o with SendSettled _ => true | _ => false end.

Definition is_fulfilment (o : Occurrence) : bool :=
  match o with SendSettled (Fulfilled _) => true | _ => false end.

Definition send_settled (trace : list Occurrence) : bool :=
  existsb is_settlement trace.

Definition send_fulfilled (trace : list Occurrence) : bool :=
  existsb is_fulfilment trace.

Fixpoint elapsed (trace : list Occurrence) : nat :=
  match trace with
  | [] => 0
  | Elapse ms :: rest => ms + elapsed rest
  | _ :: rest => elapsed rest
  end.

(** The state right after the synchronous part of the call. *)
Definition started : Waiting :=
  mkWaiting (mkClosure true false None) true AwaitingSend ["session.send"].

(** What holds of the state of a call once the occurrences [seen] that
    followed the call were processed. *)
Definition wait_inv (seen : list Occurrence) (st : Waiting) : Prop :=
  outbound st = ["session.send"] /\
  match phase st with
  | NotCalled => False
  | AwaitingSend =>
      send_settled seen = false /\
      subscribed st = true /\
      closure st =
        mkClosure true (has_idle (events_of seen))
          (last_assistant (events_of seen))
  | AwaitingIdle _ =>
      send_fulfilled seen = true /\
      has_idle (events_of seen) = false /\
      subscribed st = true /\
      closure st = mkClosure true false (last_assistant (events_of seen))
  | Done (Fulfilled v) =>
      exists pre o rest,
        seen = pre ++ o :: rest /\
        v = last_assistant (events_of (pre ++ [o])) /\
        send_fulfilled (pre ++ [o]) = true /\
        has_idle (events_of (pre ++ [o])) = true /\
        send_fulfilled pre && has_idle (events_of pre) = false
  | Done (Rejected _) => True
  end.


(** What holds of the state of a call after any trace. *)
Definition pending (p : Phase) : bool :=
  match p with
  | AwaitingSend | AwaitingIdle _ => true
  | NotCalled | Done _ => false
  end.

Definition call_inv (timeout : option nat) (st : Waiting) : Prop :=
  subscribed st = pending (phase st) /\
  outbound st =
    match phase st with NotCalled => [] | _ => ["session.send"] end /\
  match phase st with
  | NotCalled => closure st = mkClosure false false None
  | AwaitingSend => sendStarted (closure st) = true
  | AwaitingIdle timer =>
      sendStarted (closure st) = true /\
      idleResolved (closure st) = false /\
      match timer with
      | Some remaining =>
          exists t, timeout = Some t /\ remaining <= timer_delay t
      | None => timeout = None
      end
  | Done _ => True
  end.

(** The timer of a call after the occurrences [wait], and whether it has
    not run out during them. *)
Definition timer_after (timer : option nat) (wait : list Occurrence)
  : option nat :=
  (λ remaining, remaining - elapsed wait) <$> timer.

Definition in_time (timer : option nat) (wait : list Occurrence) : Prop :=
  match timer with
  | Some remaining => elapsed wait < remaining
  | None => True
  end.

End Session.

(** ** Remote-target strings and the client runtime *)

Module Client.
Import Types.

(** *** Text helpers *)

Fixpoint strip_prefix (p s : string) : option string :=
  match p, s with
  | EmptyString, _ => Some s
  | String a p', String b s' =>
      if Ascii.eqb a b then strip_prefix p' s' else None
  | String _ _, EmptyString => None
  end.

Definition is_digit (c : ascii) : bool :=
  (48 <=? nat_of_ascii c)%nat && (nat_of_ascii c <=? 57)%nat.

Fixpoint all_digits (s : string) : bool :=
  match s with
  | EmptyString => true
  | String c s' => is_digit c && all_digits s'
  end.

Definition is_empty (s : string) : bool :=
  match s with EmptyString => true | String _ _ => false end.

Definition digits_only (s : string) : bool :=
  negb (is_empty s) && all_digits s.

Fixpoint colon_free (s : string) : bool :=
  match s with
  | EmptyString => true
  | String c s' => negb (Ascii.eqb c ":") && colon_free s'
  end.

(** [s.split(":")] *)
Fixpoint split_colon (s : string) : list string :=
  match s with
  | EmptyString => [EmptyString]
  | String c s' =>
      if Ascii.eqb c ":" then EmptyString :: split_colon s'
      else match split_colon s' with
           | x :: xs => String c x :: xs
           | [] => [String c EmptyString]
           end
  end.

(** A decimal integer, with an optional minus sign. *)
Definition parse_integer (s : string) : option Z :=
  Z.of_int <$> NilZero.int_of_string s.

(** The decimal text of an integer. *)
Definition integer_text (z : Z) : string :=
  NilZero.string_of_int (Z.to_int z).

(** Characters of the decimal text of an integer. *)
Definition is_sign_or_digit (c : ascii) : bool :=
  is_digit c || Ascii.eqb c "-".

Fixpoint signed_digits (s : string) : bool :=
  match s with
  | EmptyString => true
  | String c s' => is_sign_or_digit c && signed_digits s'
  end.

(** *** Target resolver *)

Inductive ConfigError : Type :=
| InvalidTarget
| InvalidPort
| ConflictingConfig.

Definition localhost : string := "localhost".

Definition port_in_range (p : Z) : bool :=
  (1 <=? p)%Z && (p <=? 65535)%Z.

Definition check_port (host text : string) : ConfigError + (string * Z) :=
  match parse_integer text with
  | Some p => if port_in_range p then inr (host, p) else inl InvalidPort
  | None => inl InvalidPort
  end.

(** A port as it is written: decimal digits, with an optional minus
    sign. *)
Definition is_number (s : string) : bool :=
  match s with
  | EmptyString => false
  | String c rest =>
      if Ascii.eqb c "-" then digits_only rest else digits_only s
  end.

Definition parse_host_port (rest : string) : ConfigError + (string * Z) :=
  match split_colon rest with
  | [host; text] =>
      if is_empty host || negb (is_number text) then inl InvalidTarget
      else check_port host text
  | _ => inl InvalidTarget
  end.

(** Modelled from the spec: [client.ts] is not part of the sources.  The
    accepted forms are those of §4.1 and §6: [PORT], [HOST:PORT] and
    [scheme://HOST:PORT] with scheme [http] or [https]; a target without
    host names [localhost]; a text of no such form is an invalid target,
    and a target whose port is not in [1, 65535] has an invalid port.  As
    [client.test.ts] has it, ["invalid-url"] has no such form while
    ["localhost:-1"], ["localhost:0"] and ["localhost:99999"] have an
    invalid port: a port is a decimal number, possibly negative. *)
Definition parseCliUrl (url : string) : ConfigError + (string * Z) :=
  match strip_prefix "http://" url with
  | Some rest => parse_host_port rest
  | None =>
      match strip_prefix "https://" url with
      | Some rest => parse_host_port rest
      | None =>
          if is_number url then check_port localhost url
          else parse_host_port url
      end
  end.

(** The grammar of remote-target strings, as §6 words it:
    [RemoteTarget url host port] says that [url] has one of the forms
    [PORT], [HOST:PORT], [http://HOST:PORT], [https://HOST:PORT], with that
    host ([localhost] when the form has none) and that port text.  A host
    is a non-empty text without colon, a port a decimal number. *)
Inductive RemoteTarget : string -> string -> string -> Prop :=
| target_port (p : string) :
    is_number p = true -> RemoteTarget p localhost p
| target_host_port (h p : string) :
    is_empty h = false -> colon_free h = true -> is_number p = true ->
    RemoteTarget (h +:+ ":" +:+ p) h p
| target_http (h p : string) :
    is_empty h = false -> colon_free h = true -> is_number p = true ->
    RemoteTarget ("http://" +:+ h +:+ ":" +:+ p) h p
| target_https (h p : string) :
    is_empty h = false -> colon_free h = true -> is_number p = true ->
    RemoteTarget ("https://" +:+ h +:+ ":" +:+ p) h p.

Inductive TransportMode : Type := Stdio | Tcp | ExternalTcp.

Record TransportConfig : Type := mkConfig {
  mode : TransportMode;
  host : string;
  port : Z;
  executablePath : string
}.

Definition isExternalServer (cfg : TransportConfig) : bool :=
  match mode cfg with ExternalTcp => true | _ => false end.

Definition is_some {A} (o : option A) : bool :=
  match o with Some _ => true | None => false end.

(** Modelled from the spec: the resolver of §4.1, run by the constructor
    of [CopilotClient] (in [client.ts], not part of the sources). *)
Definition resolve_config (options : CopilotClientOptions)
  : ConfigError + TransportConfig :=
  match cliUrl options with
  | Some target =>
      if is_some (cliPath options) || is_some (useStdio options) then
        inl ConflictingConfig
      else
        match parseCliUrl target with
        | inl e => inl e
        | inr (h, p) => inr (mkConfig ExternalTcp h p "")
        end
  | None =>
      inr (mkConfig (if default true (useStdio options) then Stdio else Tcp)
             localhost (default 0%Z (Types.port options))
             (default "copilot" (cliPath options)))
  end.

(** *** Supervisor, connection and session registry *)

Inductive SupervisorAction : Type :=
| Spawn (path : string)
| SignalExit
| Kill
| OpenStream
| OpenSocket (h : string) (p : Z)
| CloseTransport.

Record CopilotClient : Type := mkClient {
  config : TransportConfig;
  auto_start : bool;
  state : ConnectionState;
  processRunning : bool;
  transportOpen : bool;
  sessions : gmap string Session.CopilotSession;
  actions : list SupervisorAction
}.

(** Modelled from the spec: [new CopilotClient(options)]; configuration
    errors surface here, before anything is started. *)
Definition newClient (options : CopilotClientOptions)
  : ConfigError + CopilotClient :=
  match resolve_config options with
  | inl e => inl e
  | inr cfg =>
      inr (mkClient cfg (default true (autoStart options)) disconnected
             false false ∅ [])
  end.

Inductive ClientError : Type :=
| SpawnFailed
| HandshakeFailed
| NotConnected.

(** What the outside world does during one operation. *)
Record Environment : Type := mkEnv {
  spawn_succeeds : bool;
  reported_port : Z;
  handshake_succeeds : bool;
  exits_within_grace : bool;
  peer : Session.MessageConnection
}.

Definition with_state (st : ConnectionState) (c : CopilotClient)
  : CopilotClient :=
  mkClient (config c) (auto_start c) st (processRunning c)
    (transportOpen c) (sessions c) (actions c).

Definition act (a : SupervisorAction) (c : CopilotClient) : CopilotClient :=
  mkClient (config c) (auto_start c) (state c) (processRunning c)
    (transportOpen c) (sessions c) (actions c ++ [a]).

Definition set_process (b : bool) (c : CopilotClient) : CopilotClient :=
  mkClient (config c) (auto_start c) (state c) b
    (transportOpen c) (sessions c) (actions c).

Definition set_transport (b : bool) (c : CopilotClient) : CopilotClient :=
  mkClient (config c) (auto_start c) (state c) (processRunning c)
    b (sessions c) (actions c).

Definition set_sessions (m : gmap string Session.CopilotSession)
  (c : CopilotClient) : CopilotClient :=
  mkClient (config c) (auto_start c) (state c) (processRunning c)
    (transportOpen c) m (actions c).

(** Opening the transport once a process (if any) is there. *)
Definition open_transport (env : Environment) (c : CopilotClient)
  : CopilotClient :=
  let cfg := config c in
  set_transport true
    (match mode cfg with
     | Stdio => act OpenStream c
     | Tcp => act (OpenSocket (host cfg) (reported_port env)) c
     | ExternalTcp => act (OpenSocket (host cfg) (port cfg)) c
     end).

Definition handshake (env : Environment) (c : CopilotClient)
  : (ClientError + unit) * CopilotClient :=
  if handshake_succeeds env then (inr tt, with_state connected c)
  else (inl HandshakeFailed, with_state error c).

(** Modelled from the spec: [start] of §4.2 and the state machine of §4.4
    ([client.ts] is not part of the sources). *)
Definition start (env : Environment) (c : CopilotClient)
  : (ClientError + unit) * CopilotClient :=
  match state c with
  | connected => (inr tt, c)
  | _ =>
      let c := with_state connecting c in
      if isExternalServer (config c) then
        handshake env (open_transport env c)
      else if spawn_succeeds env then
        handshake env
          (open_transport env
             (set_process true (act (Spawn (executablePath (config c))) c)))
      else (inl SpawnFailed, with_state error c)
  end.

(** Closing the transport and ending the spawned process, if there is one. *)
Definition close_transport (c : CopilotClient) : CopilotClient :=
  if transportOpen c then set_transport false (act CloseTransport c) else c.

Definition end_process (graceful : bool) (c : CopilotClient)
  : CopilotClient :=
  if processRunning c && negb (isExternalServer (config c)) then
    set_process false
      (if graceful then act SignalExit c else act Kill (act SignalExit c))
  else c.

(** Modelled from the spec: [stop] of §4.2. *)
Definition stop (env : Environment) (c : CopilotClient)
  : (ClientError + unit) * CopilotClient :=
  (inr tt,
   with_state disconnected
     (set_sessions ∅
        (end_process (exits_within_grace env) (close_transport c)))).

Definition kill_process (c : CopilotClient) : CopilotClient :=
  if processRunning c && negb (isExternalServer (config c)) then
    set_process false (act Kill c)
  else c.

(** Modelled from the spec: [forceStop] of §4.2. *)
Definition forceStop (c : CopilotClient) : CopilotClient :=
  with_state disconnected
    (set_sessions ∅ (kill_process (close_transport c))).

Record SessionConfig : Type := mkSessionConfig {
  cfg_sessionId : string;
  cfg_tools : option (list Tool);
  cfg_onPermissionRequest : option PermissionHandler
}.

Definition register_session (env : Environment) (cfg : SessionConfig)
  (c : CopilotClient) : CopilotClient :=
  let s := Session.new (cfg_sessionId cfg) (peer env) in
  let s := Session.registerTools (cfg_tools cfg) s in
  let s := Session.registerPermissionHandler (cfg_onPermissionRequest cfg) s in
  set_sessions (<[cfg_sessionId cfg := s]> (sessions c)) c.

(** Modelled from the spec: [createSession] of §4.5, starting the client
    first when it is not connected and auto-start is on. *)
Definition createSession (env : Environment) (cfg : SessionConfig)
  (c : CopilotClient) : (ClientError + unit) * CopilotClient :=
  match state c with
  | connected => (inr tt, register_session env cfg c)
  | _ =>
      if auto_start c then
        match start env c with
        | (inr _, c') => (inr tt, register_session env cfg c')
        | (inl e, c') => (inl e, c')
        end
      else (inl NotConnected, c)
  end.

Inductive Operation : Type :=
| DoStart (env : Environment)
| DoStop (env : Environment)
| DoForceStop
| DoCreateSession (env : Environment) (cfg : SessionConfig).

Definition perform (c : CopilotClient) (op : Operation) : CopilotClient :=
  match op with
  | DoStart env => (start env c).2
  | DoStop env => (stop env c).2
  | DoForceStop => forceStop c
  | DoCreateSession env cfg => (createSession env cfg c).2
  end.

Definition perform_all (ops : list Operation) (c : CopilotClient)
  : CopilotClient :=
  foldl perform c ops.

Definition touches_process (a : SupervisorAction) : bool :=
  match a with
  | Spawn _ | SignalExit | Kill => true
  | _ => false
  end.

(** A client attached to a server it does not manage: no process of its
    own, and no action on a process so far. *)
Definition hands_off (c : CopilotClient) : bool :=
  isExternalServer (config c) && negb (processRunning c) &&
  negb (existsb touches_process (actions c)).

(** *** Dispatch bridge: tool calls *)

Section Bridge.
(** The text of a failure result shown to the model, and the tool result
    made of the value a handler returned; the spec leaves both open. *)
Variable failure_text : string -> string.
Variable to_result : unknown -> ToolResult.

Definition failure_result (message : string) : ToolResult :=
  ResultObject (mkToolResult (failure_text message) failure (Some message)).

Definition not_supported (toolName : string) : string :=
  "tool '" +:+ toolName +:+ "' not supported".

(** Modelled from the spec: the tool-call path of §4.6
    ([handleToolCallRequest] of [client.ts], not part of the sources), on
    the target session of the envelope.  The promise it returns is the
    reply to the request: fulfilled, it is the result sent back; rejected,
    the error went out of the dispatch path; as §5 has it, the reply comes
    when the handler is done. *)
Definition handleToolCallRequest (request : ToolCallRequestPayload)
  : Session.Async ToolCallResponsePayload :=
  λ session,
    match Session.getToolHandler (toolName request) session with
    | None =>
        Session.ret
          (mkToolResponse (failure_result (not_supported (toolName request))))
          session
    | Some h =>
        let invocation :=
          mkInvocation (Types.sessionId request) (toolCallId request)
            (toolName request) (arguments request) in
        Session.try_catch
          (Session.bind
             (Session.await (λ _, awaited (h (arguments request) invocation)))
             (λ value, Session.ret (mkToolResponse (to_result value))))
          (λ message, Session.ret (mkToolResponse (failure_result message)))
          session
    end.

(** What goes on the wire for a request: one response once the reply is
    there (the result, or the error that escaped), none before. *)
Definition wire_responses (reply : Promise ToolCallResponsePayload)
  : list (Settled ToolCallResponsePayload) :=
  match reply with
  | Settles r => [r]
  | NeverSettles => []
  end.

End Bridge.

End Client.

(** * Properties *)

(** ** Permission requests *)

Section PermissionRequests.
Import Types Session.

Lemma handlePermissionRequest_session (request : PermissionRequest)
  (s : CopilotSession) :
  (_handlePermissionRequest request s).1 = s.
Proof.
  unfold _handlePermissionRequest, try_catch, bind, await, ret.
  destruct (permissionHandler s) as [h|]; [|done].
  simpl. by destruct (awaited _) as [[r|e]|].
Qed.

Lemma handlePermissionRequest_unfold (request : PermissionRequest)
  (s : CopilotSession) :
  (_handlePermissionRequest request s).2 =
    match permissionHandler s with
    | None => resolve denial
    | Some h =>
        match awaited (h request (sessionId s)) with
        | Settles (Fulfilled r) => resolve r
        | Settles (Rejected _) => resolve denial
        | NeverSettles => NeverSettles
        end
    end.
Proof.
  unfold _handlePermissionRequest, try_catch, bind, await, ret.
  destruct (permissionHandler s) as [h|]; [|done].
  simpl. by destruct (awaited _) as [[r|e]|].
Qed.

(** C2, as the code has it: without a handler, and when the handler throws
    or its promise rejects, the request is answered with the fixed denial;
    when the handler returns a decision or its promise fulfils, with that
    decision; the method never rejects; it stays unanswered exactly when
    the promise of a registered handler never settles. *)
Theorem handlePermissionRequest_decision (request : PermissionRequest)
  (s : CopilotSession) :
  let p := (_handlePermissionRequest request s).2 in
  (permissionHandler s = None -> p = resolve denial) /\
  (forall h e, permissionHandler s = Some h ->
     awaited (h request (sessionId s)) = reject e -> p = resolve denial) /\
  (forall h r, permissionHandler s = Some h ->
     awaited (h request (sessionId s)) = resolve r -> p = resolve r) /\
  (forall e, p <> reject e) /\
  (p = NeverSettles <->
     exists h, permissionHandler s = Some h /\
               awaited (h request (sessionId s)) = NeverSettles).
Proof.
  intros p. subst p. rewrite handlePermissionRequest_unfold.
  repeat split.
  - by intros ->.
  - intros h e -> Hh. by rewrite Hh.
  - intros h r -> Hh. by rewrite Hh.
  - intros e. destruct (permissionHandler s) as [h|]; [|done].
    by destruct (awaited _) as [[r|e']|].
  - destruct (permissionHandler s) as [h|]; [|done].
    intros Hp. exists h. split; [done|].
    by destruct (awaited _) as [[r|e']|].
  - intros (h & -> & Hh). by rewrite Hh.
Qed.

Lemma handlePermissionRequest_decision_witness :
  (_handlePermissionRequest (mkPermissionRequest shell None)
     (registerPermissionHandler (Some (λ _ _, Throws "boom"))
        (new "s1" (mkConnection (λ _ _, NeverSettles))))).2
  = resolve denial.
Proof.
  eapply (proj1 (proj2 (handlePermissionRequest_decision _ _)));
    reflexivity.
Defined.

(** C2, as stated, fails: a registered handler whose promise never settles
    leaves the request unanswered. *)
Lemma handlePermissionRequest_unanswered :
  (_handlePermissionRequest (mkPermissionRequest shell None)
     (registerPermissionHandler
        (Some (λ _ _, ReturnsPromise NeverSettles))
        (new "s1" (mkConnection (λ _ _, NeverSettles))))).2
  = NeverSettles
  /\ ~ (forall request s, exists decision,
          (_handlePermissionRequest request s).2 = resolve decision).
Proof.
  split; [reflexivity|].
  intros H.
  destruct (H (mkPermissionRequest shell None)
              (registerPermissionHandler
                 (Some (λ _ _, ReturnsPromise NeverSettles))
                 (new "s1" (mkConnection (λ _ _, NeverSettles)))))
    as [d Hd].
  discriminate Hd.
Qed.

End PermissionRequests.

(** ** Destroying a session *)

Section Destroy.
Import Types Session.

Lemma values_clear (hs : JSSet.t) : JSSet.values (JSSet.clear hs) = [].
Proof.
  unfold JSSet.values, JSSet.clear.
  induction hs as [|e hs IH]; [done|]. simpl. exact IH.
Qed.

(** C3, as the code has it: when the destroy request is fulfilled, the
    subscribers, the tool handlers and the permission handler are cleared
    and [destroy] resolves; when the request is rejected, [destroy] rejects
    with the same error and the session is left as it was; while the
    request is pending nothing changes. *)
Theorem destroy_clears_after_reply (s : CopilotSession) :
  match sendRequest (connection s) "session.destroy" (sessionId s) with
  | Settles (Fulfilled _) =>
      (destroy s).2 = resolve tt /\
      JSSet.values (eventHandlers (destroy s).1) = [] /\
      toolHandlers (destroy s).1 = ∅ /\
      permissionHandler (destroy s).1 = None
  | Settles (Rejected e) => destroy s = (s, reject e)
  | NeverSettles => destroy s = (s, NeverSettles)
  end.
Proof.
  unfold destroy, bind, await, update.
  destruct (sendRequest _ _ _) as [[v|e]|]; simpl; [|done|done].
  repeat split. apply values_clear.
Qed.

(** C3, as stated, fails: when the destroy request is rejected the
    subscriber, the tool handler and the permission handler all stay
    registered. *)
Lemma destroy_rejected_keeps_handlers :
  let s :=
    on 7
      (registerTools (Some [mkTool "echo" None None (λ a _, Returns a)])
         (registerPermissionHandler
            (Some (λ _ _, Returns (mkPermissionResult approved None)))
            (new "s1" (mkConnection (λ _ _, reject "connection closed"))))) in
  (destroy s).2 = reject "connection closed" /\
  JSSet.values (eventHandlers (destroy s).1) = [7] /\
  is_Some (toolHandlers (destroy s).1 !! "echo") /\
  is_Some (permissionHandler (destroy s).1).
Proof.
  simpl. repeat split; try reflexivity.
  - vm_compute. eauto.
  - vm_compute. eauto.
Qed.

End Destroy.

(** ** Dispatch bridge: tool calls *)

Section ToolCalls.
Import Types Client.

Lemma handleToolCallRequest_unfold (failure_text : string -> string)
  (to_result : unknown -> ToolResult)
  (session : Session.CopilotSession) (request : ToolCallRequestPayload) :
  handleToolCallRequest failure_text to_result request session =
    (session,
     match Session.getToolHandler (toolName request) session with
     | None =>
         resolve
           (mkToolResponse
              (failure_result failure_text (not_supported (toolName request))))
     | Some h =>
         match
           awaited
             (h (arguments request)
                (mkInvocation (Types.sessionId request) (toolCallId request)
                   (toolName request) (arguments request)))
         with
         | Settles (Fulfilled value) =>
             resolve (mkToolResponse (to_result value))
         | Settles (Rejected message) =>
             resolve (mkToolResponse (failure_result failure_text message))
         | NeverSettles => NeverSettles
         end
     end).
Proof.
  unfold handleToolCallRequest.
  destruct (Session.getToolHandler (toolName request) session) as [h|];
    [|done].
  unfold Session.try_catch, Session.bind, Session.await, Session.ret.
  by destruct (awaited _) as [[value|message]|].
Qed.




End ToolCalls.

(** ** Conflicting configuration *)

Section Conflicts.
Import Types Client.

(** C8: a configuration with a remote target and an executable path, or
    with a remote target and a transport-mode override, is refused by the
    constructor with [ConflictingConfig]; no client comes into being, so
    nothing is spawned. *)
Theorem newClient_conflicting (options : CopilotClientOptions)
  (target : string) :
  cliUrl options = Some target ->
  is_some (cliPath options) = true \/ is_some (useStdio options) = true ->
  resolve_config options = inl ConflictingConfig /\
  newClient options = inl ConflictingConfig.
Proof.
  intros Hurl Hconflict.
  assert (resolve_config options = inl ConflictingConfig) as Hr.
  { unfold resolve_config. rewrite Hurl.
    destruct Hconflict as [-> | ->]; [done|].
    by rewrite orb_true_r. }
  split; [done|]. unfold newClient. by rewrite Hr.
Qed.

Lemma newClient_conflicting_witness :
  newClient (mkOptions None None (Some true) (Some "localhost:8080") None None)
  = inl ConflictingConfig
  /\ newClient
       (mkOptions (Some "/path/to/cli") None None (Some "localhost:8080")
          None None)
     = inl ConflictingConfig.
Proof.
  split.
  - apply (newClient_conflicting
             (mkOptions None None (Some true) (Some "localhost:8080") None None)
             "localhost:8080"); [reflexivity | right; reflexivity].
  - apply (newClient_conflicting
             (mkOptions (Some "/path/to/cli") None None
                (Some "localhost:8080") None None)
             "localhost:8080"); [reflexivity | left; reflexivity].
Defined.

End Conflicts.

(** ** Connection state *)

Section ConnectionStates.
Import Types Client.

Lemma handshake_ok (env : Environment) (c c' : CopilotClient) :
  handshake env c = (inr tt, c') -> state c' = connected.
Proof.
  unfold handshake. destruct (handshake_succeeds env); [|done].
  by intros [= <-].
Qed.

Lemma start_ok (env : Environment) (c c' : CopilotClient) :
  start env c = (inr tt, c') -> state c' = connected.
Proof.
  unfold start.
  destruct (state c) eqn:Hst;
    try (destruct (isExternalServer _);
         [apply handshake_ok|
          destruct (spawn_succeeds env); [apply handshake_ok|done]]).
  by intros [= <-].
Qed.

Lemma forceStop_state (c : CopilotClient) :
  state (forceStop c) = disconnected.
Proof. reflexivity. Qed.

(** C9: after a successful [start] the state is connected; after a
    successful [stop] it is disconnected; [forceStop] leaves it
    disconnected whatever happened before, also right after a session was
    created with no graceful stop. *)
Theorem connection_state_after_operations :
  (forall env c c', start env c = (inr tt, c') -> state c' = connected) /\
  (forall env c c', stop env c = (inr tt, c') -> state c' = disconnected) /\
  (forall c, state (forceStop c) = disconnected) /\
  (forall ops c, state (forceStop (perform_all ops c)) = disconnected) /\
  (forall env cfg c,
     state (forceStop (createSession env cfg c).2) = disconnected).
Proof.
  repeat split.
  - apply start_ok.
  - intros env c c'. unfold stop. by intros [= <-].
Qed.

Lemma connection_state_after_operations_witness :
  let env :=
    mkEnv true 0 true true (Session.mkConnection (λ _ _, NeverSettles)) in
  let c :=
    mkClient (mkConfig Stdio localhost 0 "copilot") true disconnected
      false false ∅ [] in
  state (start env c).2 = connected /\
  state (stop env (start env c).2).2 = disconnected.
Proof.
  intros env c. split.
  - apply (proj1 connection_state_after_operations env c). reflexivity.
  - apply (proj1 (proj2 connection_state_after_operations) env
             (start env c).2).
    reflexivity.
Defined.

End ConnectionStates.

(** ** Dispatching events to subscribers *)

Section EventDispatch.
Import Types Session.

Lemma elem_of_values (h : JSSet.HandlerId) (hs : JSSet.t) :
  h ∈ JSSet.values hs <-> Some h ∈ hs.
Proof.
  unfold JSSet.values. rewrite list_elem_of_omap. split.
  - intros (y & Hy & Heq). simpl in Heq. by subst y.
  - intros H. by exists (Some h).
Qed.

Lemma values_app (l1 l2 : JSSet.t) :
  JSSet.values (l1 ++ l2) = JSSet.values l1 ++ JSSet.values l2.
Proof. unfold JSSet.values. apply omap_app. Qed.

Lemma values_add (h : JSSet.HandlerId) (hs : JSSet.t) :
  JSSet.values (JSSet.add h hs) =
    subscribe_in_order (JSSet.values hs) (CallOn h).
Proof.
  unfold JSSet.add, JSSet.has. simpl.
  destruct (bool_decide (Some h ∈ hs)) eqn:Hin.
  - apply bool_decide_eq_true in Hin. apply elem_of_values in Hin.
    by rewrite bool_decide_eq_true_2.
  - apply bool_decide_eq_false in Hin.
    rewrite bool_decide_eq_false_2; [|by rewrite elem_of_values].
    by rewrite values_app.
Qed.

Lemma values_delete (h : JSSet.HandlerId) (hs : JSSet.t) :
  JSSet.values (JSSet.delete h hs) =
    subscribe_in_order (JSSet.values hs) (CallUnsubscribe h).
Proof.
  unfold JSSet.delete, JSSet.values. simpl.
  induction hs as [|[x|] hs IH]; simpl; [done| |done].
  destruct (bool_decide (Some x = Some h)) eqn:Heq.
  - apply bool_decide_eq_true in Heq. injection Heq as ->.
    rewrite filter_cons_False; [|by intros ?]. exact IH.
  - apply bool_decide_eq_false in Heq. simpl.
    rewrite filter_cons_True; [|congruence]. f_equal. exact IH.
Qed.

Lemma values_apply_calls (cs : list SetCall) (hs : JSSet.t) :
  JSSet.values (apply_calls cs hs) =
    foldl subscribe_in_order (JSSet.values hs) cs.
Proof.
  unfold apply_calls. revert hs.
  induction cs as [|c cs IH]; intros hs; [done|]. simpl.
  rewrite IH. f_equal. destruct c; [apply values_add|apply values_delete].
Qed.

Lemma subscribe_in_order_NoDup (l : list JSSet.HandlerId) (c : SetCall) :
  NoDup l -> NoDup (subscribe_in_order l c).
Proof.
  intros Hl. destruct c as [h|h]; simpl.
  - case_bool_decide; [done|].
    apply NoDup_app. repeat split; [done| |apply NoDup_singleton].
    intros x Hx ->%list_elem_of_singleton. done.
  - by apply NoDup_filter.
Qed.

Lemma subscribers_in_order_NoDup (cs : list SetCall) :
  NoDup (subscribers_in_order cs).
Proof.
  unfold subscribers_in_order.
  assert (forall l, NoDup l -> NoDup (foldl subscribe_in_order l cs)) as H.
  { induction cs as [|c cs IH]; intros l Hl; [done|].
    simpl. apply IH. by apply subscribe_in_order_NoDup. }
  apply H. constructor.
Qed.

Lemma subscribers_in_order_snoc (cs : list SetCall) (c : SetCall) :
  subscribers_in_order (cs ++ [c]) =
    subscribe_in_order (subscribers_in_order cs) c.
Proof. unfold subscribers_in_order. by rewrite foldl_app. Qed.

Lemma on_twice (cs : list SetCall) (h : JSSet.HandlerId) :
  subscribers_in_order (cs ++ [CallOn h; CallOn h]) =
    subscribers_in_order (cs ++ [CallOn h]).
Proof.
  unfold subscribers_in_order. rewrite !foldl_app. simpl.
  set (l := foldl subscribe_in_order [] cs).
  destruct (bool_decide (h ∈ l)) eqn:Hin.
  - by rewrite Hin.
  - rewrite bool_decide_eq_true_2; [done|]. set_solver.
Qed.

Section Handlers.
Context {World : Type}.
Variable run_handler :
  JSSet.HandlerId -> SessionEvent -> World -> HandlerRun World.

Lemma guarded_None (r : HandlerRun World) : guarded r = None.
Proof. unfold guarded. by destruct (thrown r). Qed.

Lemma dispatch_from_never_raises (fuel idx : nat) (event : SessionEvent)
  (hs : JSSet.t) (w : World) log (d : Dispatched World) :
  dispatch_from run_handler fuel idx event hs w log = Some d ->
  raised d = None.
Proof.
  revert idx hs w log.
  induction fuel as [|fuel IH]; intros idx hs w log; [done|]. simpl.
  destruct (hs !! idx) as [[h|]|].
  - rewrite guarded_None. apply IH.
  - apply IH.
  - by intros [= <-].
Qed.

Lemma dispatch_from_quiet (event : SessionEvent) (hs : JSSet.t)
  (fuel idx : nat) (w : World) log :
  (forall h e w', h ∈ JSSet.values hs -> calls (run_handler h e w') = []) ->
  length hs - idx < fuel ->
  exists d,
    dispatch_from run_handler fuel idx event hs w log = Some d /\
    invoked d =
      log ++ ((λ h, (h, event)) <$> JSSet.values (drop idx hs)) /\
    handlers_after d = hs.
Proof.
  intros Hquiet. revert idx w log.
  induction fuel as [|fuel IH]; intros idx w log Hfuel; [lia|]. simpl.
  destruct (hs !! idx) as [[h|]|] eqn:Hidx.
  - rewrite guarded_None.
    assert (h ∈ JSSet.values hs) as Hin.
    { apply elem_of_values. by eapply list_elem_of_lookup_2. }
    rewrite (Hquiet h event w Hin). unfold apply_calls. simpl.
    apply lookup_lt_Some in Hidx as Hlt.
    destruct (IH (S idx) (world_after (run_handler h event w))
                (log ++ [(h, event)])) as (d & Hd & Hinv & Hafter);
      [lia|].
    exists d. split; [done|]. split; [|done].
    rewrite Hinv. rewrite (drop_S _ _ _ Hidx). simpl.
    by rewrite <- app_assoc.
  - apply lookup_lt_Some in Hidx as Hlt.
    destruct (IH (S idx) w log) as (d & Hd & Hinv & Hafter); [lia|].
    exists d. split; [done|]. split; [|done].
    rewrite Hinv. by rewrite (drop_S _ _ _ Hidx).
  - apply lookup_ge_None in Hidx.
    eexists. split; [done|]. simpl. split; [|done].
    rewrite drop_ge; [|done]. simpl. by rewrite app_nil_r.
Qed.

End Handlers.

(** C10, as the code has it: for a subscriber set built by any sequence of
    [on] and unsubscribe calls, and handlers that do not change the
    subscriber set while the event is dispatched, every subscribed handler
    is invoked exactly once with the event, in registration order, whether
    handlers throw or not; a handler registered twice is there once.
    Whatever the handlers do, nothing is thrown out of [_dispatchEvent]. *)
Theorem dispatchEvent_invokes_subscribers {World : Type}
  (run_handler : JSSet.HandlerId -> SessionEvent -> World -> HandlerRun World)
  (registrations : list SetCall) (event : SessionEvent)
  (s : CopilotSession) (w : World) :
  eventHandlers s = apply_calls registrations JSSet.empty ->
  (forall h e w', h ∈ subscribers_in_order registrations ->
     calls (run_handler h e w') = []) ->
  (exists d,
     _dispatchEvent run_handler (S (length (eventHandlers s))) event s w
       = Some d /\
     invoked d = (λ h, (h, event)) <$> subscribers_in_order registrations /\
     handlers_after d = eventHandlers s /\
     raised d = None) /\
  NoDup (subscribers_in_order registrations) /\
  (forall h, subscribers_in_order (registrations ++ [CallOn h; CallOn h]) =
             subscribers_in_order (registrations ++ [CallOn h])) /\
  (forall any_handler fuel d,
     _dispatchEvent (World := World) any_handler fuel event s w = Some d ->
     raised d = None).
Proof.
  intros Hs Hquiet.
  assert (JSSet.values (eventHandlers s) = subscribers_in_order registrations)
    as Hvalues.
  { rewrite Hs. by rewrite values_apply_calls. }
  repeat split.
  - unfold _dispatchEvent.
    destruct (dispatch_from_quiet run_handler event (eventHandlers s)
                (S (length (eventHandlers s))) 0 w [])
      as (d & Hd & Hinv & Hafter).
    + intros h e w' Hin. apply Hquiet. by rewrite <- Hvalues.
    + lia.
    + exists d. split; [done|]. rewrite drop_0, Hvalues in Hinv.
      split; [done|]. split; [done|].
      by eapply dispatch_from_never_raises.
  - apply subscribers_in_order_NoDup.
  - intros h. apply on_twice.
  - intros any_handler fuel d. apply dispatch_from_never_raises.
Qed.

Lemma dispatchEvent_invokes_subscribers_witness :
  let run := λ (h : JSSet.HandlerId) (_ : SessionEvent) (w : nat),
               mkRun (w + h) [] (if Nat.eqb h 1 then Some "boom" else None) in
  let s := on 1 (on 2 (on 1 (new "s1" (mkConnection (λ _ _, NeverSettles))))) in
  let event := mkEvent "assistant.message" "hello" in
  exists d,
    _dispatchEvent run (S (length (eventHandlers s))) event s 0 = Some d /\
    invoked d = [(1, event); (2, event)] /\
    handlers_after d = eventHandlers s /\
    raised d = None.
Proof.
  intros run s event.
  apply (proj1 (dispatchEvent_invokes_subscribers run
                  [CallOn 1; CallOn 2; CallOn 1] event s 0
                  eq_refl (λ _ _ _ _, eq_refl))).
Defined.

(** C10, as stated, fails when a handler changes the subscriber set during
    the dispatch: a handler unsubscribed by an earlier one is not invoked
    for the event, and a handler that unsubscribes and subscribes itself
    again is invoked a second time. *)
Lemma dispatchEvent_sees_changes_of_subscribers :
  let event := mkEvent "session.idle" "" in
  let conn := mkConnection (λ _ _, NeverSettles) in
  (let run := λ (h : JSSet.HandlerId) (_ : SessionEvent) (w : nat),
                mkRun w (if Nat.eqb h 1 then [CallUnsubscribe 2] else []) None in
   let s := on 2 (on 1 (new "s1" conn)) in
   JSSet.values (eventHandlers s) = [1; 2] /\
   invoked <$> _dispatchEvent run 5 event s 0 = Some [(1, event)]) /\
  (let run := λ (h : JSSet.HandlerId) (_ : SessionEvent) (w : nat),
                mkRun (S w)
                  (if Nat.eqb w 0 then [CallUnsubscribe h; CallOn h] else [])
                  None in
   let s := on 1 (new "s1" conn) in
   JSSet.values (eventHandlers s) = [1] /\
   invoked <$> _dispatchEvent run 5 event s 0
     = Some [(1, event); (1, event)]).
Proof. vm_compute. repeat split. Qed.

End EventDispatch.

(** ** [sendAndWait] *)

Section SendAndWait.
Import Types Session.

Lemma events_of_snoc (tr : list Occurrence) (o : Occurrence) :
  events_of (tr ++ [o]) =
    events_of tr ++ match o with Notification e => [e] | _ => [] end.
Proof.
  unfold events_of. rewrite omap_app. by destruct o.
Qed.

Lemma last_assistant_snoc (evs : list SessionEvent) (e : SessionEvent) :
  last_assistant (evs ++ [e]) =
    if is_assistant_message e then Some e else last_assistant evs.
Proof.
  unfold last_assistant. rewrite filter_app.
  destruct (is_assistant_message e) eqn:He.
  - rewrite filter_cons_True; [|done]. apply last_snoc.
  - rewrite filter_cons_False; [|by rewrite He]. simpl.
    by rewrite app_nil_r.
Qed.

Lemma has_idle_snoc (evs : list SessionEvent) (e : SessionEvent) :
  has_idle (evs ++ [e]) = has_idle evs || is_idle e.
Proof. unfold has_idle. rewrite existsb_app. simpl. by rewrite orb_false_r. Qed.

Lemma has_idle_app (l1 l2 : list SessionEvent) :
  has_idle (l1 ++ l2) = has_idle l1 || has_idle l2.
Proof. apply existsb_app. Qed.

Lemma events_of_app (l1 l2 : list Occurrence) :
  events_of (l1 ++ l2) = events_of l1 ++ events_of l2.
Proof. apply omap_app. Qed.

Lemma assistant_not_idle (e : SessionEvent) :
  is_assistant_message e = true -> is_idle e = false.
Proof.
  unfold is_assistant_message, is_idle. intros H%String.eqb_eq.
  by rewrite H.
Qed.

(** The flag gates the listener: before [sendStarted] is set, no event
    changes what the closure holds. *)
Lemma listener_not_started (c : Closure) (e : SessionEvent) :
  sendStarted c = false -> listener c e = c.
Proof. unfold listener. by intros ->. Qed.

Lemma listener_started (b : bool) (l : option SessionEvent)
  (e : SessionEvent) :
  listener (mkClosure true b l) e =
    mkClosure true (b || is_idle e)
      (if is_assistant_message e then Some e else l).
Proof.
  unfold listener. simpl.
  fold (is_assistant_message e). fold (is_idle e).
  destruct (is_assistant_message e) eqn:Ha.
  - by rewrite (assistant_not_idle e Ha), orb_false_r.
  - destruct (is_idle e); by rewrite ?orb_true_r, ?orb_false_r.
Qed.

(** Delivering an event to the listener of a call is what [_dispatchEvent]
    does when the listener is the subscriber: the closure is the state the
    handler works on. *)
Lemma dispatchEvent_listener (h : JSSet.HandlerId) (s : CopilotSession)
  (c : Closure) (e : SessionEvent) :
  eventHandlers s = JSSet.add h JSSet.empty ->
  _dispatchEvent (λ _ event w, mkRun (listener w event) [] None) 2 e s c =
    Some (mkDispatched Closure [Some h] (listener c e) [(h, e)] None).
Proof. unfold _dispatchEvent. by intros ->. Qed.

Lemma done_stable (timeout : option nat) (tr : list Occurrence)
  (st : Waiting) (r : Settled (option SessionEvent)) :
  phase st = Done r -> foldl (step timeout) st tr = st.
Proof.
  intros Hdone. induction tr as [|o tr IH]; [done|]. simpl.
  assert (step timeout st o = st) as ->; [|done].
  unfold step. rewrite Hdone. by destruct o.
Qed.

(** Events delivered before the call reach no listener of the call. *)
Lemma stale_ignored (timeout : option nat) (stale : list SessionEvent) :
  foldl (step timeout) initial (Notification <$> stale) = initial.
Proof. induction stale as [|e stale IH]; [done|]. exact IH. Qed.

Lemma sendAndWait_started (timeout : option nat) (stale : list SessionEvent)
  (after : list Occurrence) :
  sendAndWait timeout ((Notification <$> stale) ++ Invoke :: after) =
    foldl (step timeout) started after.
Proof.
  unfold sendAndWait. rewrite foldl_app, stale_ignored. reflexivity.
Qed.

(** While the send request is in flight, the closure records what was
    observed since the call. *)
Lemma awaiting_send (timeout : option nat) (pre : list Occurrence) :
  send_settled pre = false ->
  foldl (step timeout) started pre =
    mkWaiting
      (mkClosure true (has_idle (events_of pre))
         (last_assistant (events_of pre)))
      true AwaitingSend ["session.send"].
Proof.
  induction pre as [|o pre IH] using rev_ind; [done|].
  unfold send_settled. rewrite existsb_app. simpl. rewrite orb_false_r.
  intros [Hpre Ho]%orb_false_elim.
  rewrite foldl_app. simpl. rewrite (IH Hpre).
  rewrite events_of_snoc.
  destruct o as [|e|r|ms]; try discriminate Ho;
    rewrite ?app_nil_r; try reflexivity.
  unfold step, deliver. simpl. rewrite listener_started.
  by rewrite has_idle_snoc, last_assistant_snoc.
Qed.

Lemma send_fulfilled_snoc (tr : list Occurrence) (o : Occurrence) :
  send_fulfilled (tr ++ [o]) = send_fulfilled tr || is_fulfilment o.
Proof.
  unfold send_fulfilled. rewrite existsb_app. simpl. by rewrite orb_false_r.
Qed.

Lemma send_settled_snoc (tr : list Occurrence) (o : Occurrence) :
  send_settled (tr ++ [o]) = send_settled tr || is_settlement o.
Proof.
  unfold send_settled. rewrite existsb_app. simpl. by rewrite orb_false_r.
Qed.

Lemma not_settled_not_fulfilled (tr : list Occurrence) :
  send_settled tr = false -> send_fulfilled tr = false.
Proof.
  induction tr as [|o tr IH]; [done|]. simpl.
  intros [Ho Htr]%orb_false_elim. rewrite (IH Htr), orb_false_r.
  by destruct o as [| |[]|].
Qed.

Lemma step_done (timeout : option nat) (st : Waiting) (o : Occurrence)
  (r : Settled (option SessionEvent)) :
  phase st = Done r -> step timeout st o = st.
Proof. intros H. unfold step. rewrite H. by destruct o. Qed.

Lemma step_awaiting_send (timeout : option nat) (st : Waiting)
  (o : Occurrence) :
  phase st = AwaitingSend ->
  step timeout st o =
    match o with
    | Notification e => deliver e st
    | SendSettled (Fulfilled _) => after_send timeout st
    | SendSettled (Rejected e) => finish (Rejected e) st
    | _ => st
    end.
Proof. intros H. unfold step. rewrite H. by destruct o. Qed.

Lemma step_awaiting_idle (timeout timer : option nat) (st : Waiting)
  (o : Occurrence) :
  phase st = AwaitingIdle timer ->
  step timeout st o =
    match o with
    | Notification e =>
        if idleResolved (closure (deliver e st)) then
          finish
            (Fulfilled (lastAssistantMessage (closure (deliver e st))))
            (deliver e st)
        else deliver e st
    | Elapse ms =>
        match timer with
        | Some remaining =>
            if (remaining <=? ms)%nat then
              finish (Rejected (timeout_error (default 0 timeout))) st
            else
              mkWaiting (closure st) (subscribed st)
                (AwaitingIdle (Some (remaining - ms))) (outbound st)
        | None => st
        end
    | _ => st
    end.
Proof. intros H. unfold step. rewrite H. by destruct timer, o. Qed.

Lemma wait_inv_step (timeout : option nat) (seen : list Occurrence)
  (st : Waiting) (o : Occurrence) :
  wait_inv seen st -> wait_inv (seen ++ [o]) (step timeout st o).
Proof.
  intros [Hout Hinv].
  destruct (phase st) as [| |timer|[v|err]] eqn:Hphase; [done| | | |].
  - (* the send request is in flight *)
    destruct Hinv as (Hsettled & Hsub & Hclosure).
    rewrite (step_awaiting_send _ _ _ Hphase).
    assert (match o with
            | Notification _ | SendSettled _ => False
            | _ => True
            end -> wait_inv (seen ++ [o]) st) as Hsame.
    { intros Ho. split; [done|]. rewrite Hphase.
      rewrite send_settled_snoc, Hsettled, events_of_snoc.
      destruct o; try done; by rewrite app_nil_r. }
    destruct o as [|e|[m|err]|ms]; [by apply Hsame| | | |by apply Hsame].
    + unfold deliver. rewrite Hsub, Hclosure. simpl.
      rewrite listener_started. split; [done|]. simpl. rewrite Hphase.
      rewrite send_settled_snoc, Hsettled, events_of_snoc.
      by rewrite has_idle_snoc, last_assistant_snoc.
    + unfold after_send. rewrite Hclosure. simpl.
      destruct (has_idle (events_of seen)) eqn:Hidle; simpl.
      * split; [done|]. exists seen, (SendSettled (Fulfilled m)), [].
        rewrite events_of_snoc, app_nil_r, send_fulfilled_snoc. simpl.
        rewrite orb_true_r, Hidle, (not_settled_not_fulfilled _ Hsettled).
        done.
      * split; [done|]. simpl.
        rewrite events_of_snoc, app_nil_r, send_fulfilled_snoc. simpl.
        by rewrite orb_true_r, Hidle.
    + done.
  - (* waiting for the idle notification *)
    destruct Hinv as (Hful & Hidle & Hsub & Hclosure).
    rewrite (step_awaiting_idle _ _ _ _ Hphase).
    assert (match o with Notification _ => False | _ => True end ->
            wait_inv (seen ++ [o]) st) as Hsame.
    { intros Ho. split; [done|]. rewrite Hphase.
      rewrite send_fulfilled_snoc, Hful, events_of_snoc.
      destruct o; try done; by rewrite app_nil_r. }
    destruct o as [|e|r|ms]; [by apply Hsame| |by apply Hsame|].
    + unfold deliver. rewrite Hsub, Hclosure. simpl.
      rewrite listener_started. simpl.
      destruct (is_idle e) eqn:He; simpl.
      * split; [done|]. exists seen, (Notification e), [].
        rewrite events_of_snoc, last_assistant_snoc, has_idle_snoc.
        rewrite send_fulfilled_snoc, Hful, Hidle, He. done.
      * split; [done|]. rewrite Hphase.
        rewrite events_of_snoc, last_assistant_snoc, has_idle_snoc.
        by rewrite send_fulfilled_snoc, Hful, Hidle, He.
    + destruct timer as [remaining|]; [|by apply Hsame].
      destruct (remaining <=? ms)%nat; simpl; [done|].
      split; [done|]. simpl.
      by rewrite send_fulfilled_snoc, Hful, events_of_snoc, app_nil_r.
  - (* resolved *)
    rewrite (step_done _ _ _ _ Hphase).
    split; [done|]. rewrite Hphase.
    destruct Hinv as (pre & o' & rest & -> & Hrest).
    exists pre, o', (rest ++ [o]). by rewrite <- app_assoc.
  - (* rejected *)
    rewrite (step_done _ _ _ _ Hphase).
    split; [done|]. by rewrite Hphase.
Qed.

Lemma wait_inv_run (timeout : option nat) (after : list Occurrence) :
  wait_inv after (foldl (step timeout) started after).
Proof.
  induction after as [|o after IH] using rev_ind.
  - split; [done|]. simpl. done.
  - rewrite foldl_app. simpl. by apply wait_inv_step.
Qed.

Lemma before_first_idle_app (l rest : list SessionEvent)
  (e : SessionEvent) :
  has_idle l = false -> is_idle e = true ->
  before_first_idle (l ++ e :: rest) = l.
Proof.
  intros Hl He. induction l as [|x l IH]; simpl.
  - by rewrite He.
  - simpl in Hl. apply orb_false_elim in Hl as [Hx Hl].
    rewrite Hx. f_equal. by apply IH.
Qed.

End SendAndWait.

Section SendAndWaitResults.
Import Types Session.




Lemma idle_kept (c : Closure) (e : SessionEvent) :
  is_idle e = false -> idleResolved (listener c e) = idleResolved c.
Proof.
  unfold listener. intros He.
  destruct (sendStarted c); [|done].
  destruct (String.eqb (type e) "assistant.message"); [done|].
  fold (is_idle e). by rewrite He.
Qed.

Lemma timer_delay_bounds (t : nat) :
  1 <= timer_delay t /\ timer_delay t <= Nat.max 1 t.
Proof.
  unfold timer_delay.
  destruct (N.of_nat t <? 1)%N eqn:Hlow; simpl; [lia|].
  destruct (2147483647 <? N.of_nat t)%N eqn:Hhigh; [lia|].
  apply N.ltb_ge in Hlow. lia.
Qed.

(** Once the wait for the idle notification has begun, a trace without
    idle notification in which enough time passes ends in the timeout. *)
Lemma awaiting_idle_times_out (t : nat) (wait : list Occurrence) :
  forall (st : Waiting) (remaining : nat),
    phase st = AwaitingIdle (Some remaining) ->
    idleResolved (closure st) = false ->
    has_idle (events_of wait) = false ->
    remaining <= elapsed wait -> 0 < elapsed wait ->
    let st' := foldl (step (Some t)) st wait in
    phase st' = Done (Rejected (timeout_error t)) /\
    subscribed st' = false /\
    outbound st' = outbound st.
Proof.
  induction wait as [|o wait IH]; intros st remaining Hphase Hres Hidle Hle Hpos;
    [simpl in Hpos; lia|].
  simpl. rewrite (step_awaiting_idle _ _ _ _ Hphase).
  destruct o as [|e|r|ms]; simpl in *.
  - by eapply IH.
  - apply orb_false_elim in Hidle as [He Hidle].
    assert (idleResolved (closure (deliver e st)) = false) as Hres'.
    { unfold deliver. destruct (subscribed st); [|done]. simpl.
      by rewrite idle_kept. }
    rewrite Hres'.
    destruct (IH (deliver e st) remaining) as (H1 & H2 & H3); try done.
    { unfold deliver. by destruct (subscribed st). }
    repeat split; try done. rewrite H3. unfold deliver.
    by destruct (subscribed st).
  - by eapply IH.
  - destruct (remaining <=? ms)%nat eqn:Hfire.
    + by rewrite (done_stable _ _ _ (Rejected (timeout_error t))).
    + apply Nat.leb_gt in Hfire.
      destruct (IH (mkWaiting (closure st) (subscribed st)
                      (AwaitingIdle (Some (remaining - ms))) (outbound st))
                  (remaining - ms)) as (H1 & H2 & H3); try done; lia.
Qed.

(** C5, as the code has it: the timer is set when the send request has
    been fulfilled; if no idle notification is delivered from the call
    until the timeout has passed after that, the call rejects with the
    timeout error and its listener is removed; the call issued exactly
    one [session.send] request and nothing else, so the request is neither
    cancelled nor repeated. *)
Theorem sendAndWait_times_out (t : nat) (stale : list SessionEvent)
  (pre wait rest : list Occurrence) (messageId : string) :
  send_settled pre = false ->
  has_idle (events_of (pre ++ wait)) = false ->
  t <= elapsed wait -> 0 < elapsed wait ->
  let st :=
    sendAndWait (Some t)
      ((Notification <$> stale) ++ Invoke :: pre ++
       SendSettled (Fulfilled messageId) :: wait ++ rest) in
  phase st = Done (Rejected (timeout_error t)) /\
  subscribed st = false /\
  outbound st = ["session.send"].
Proof.
  intros Hpre Hidle Hle Hpos st. subst st.
  rewrite events_of_app, has_idle_app in Hidle.
  apply orb_false_elim in Hidle as [Hidle1 Hidle2].
  rewrite sendAndWait_started, foldl_app, (awaiting_send _ _ Hpre).
  simpl. rewrite Hidle1.
  change (step (Some t) _ (SendSettled (Fulfilled messageId)))
    with (mkWaiting (mkClosure true false (last_assistant (events_of pre)))
            true (AwaitingIdle (Some (timer_delay t))) ["session.send"]).
  destruct (timer_delay_bounds t) as [_ Hdelay].
  destruct (awaiting_idle_times_out t wait
              (mkWaiting
                 (mkClosure true false (last_assistant (events_of pre)))
                 true (AwaitingIdle (Some (timer_delay t))) ["session.send"])
              (timer_delay t))
    as (H1 & H2 & H3); try done; [lia|].
  rewrite foldl_app.
  by rewrite (done_stable _ rest _ _ H1).
Qed.

Lemma sendAndWait_times_out_witness :
  phase
    (sendAndWait (Some 100)
       [Invoke; Notification (mkEvent "assistant.message_delta" "a");
        SendSettled (Fulfilled "m1"); Elapse 60;
        Notification (mkEvent "assistant.message" "partial"); Elapse 60;
        Notification (mkEvent "session.idle" "")])
  = Done (Rejected "Timeout after 100ms waiting for session.idle").
Proof.
  apply (sendAndWait_times_out 100 []
           [Notification (mkEvent "assistant.message_delta" "a")]
           [Elapse 60; Notification (mkEvent "assistant.message" "partial");
            Elapse 60]
           [Notification (mkEvent "session.idle" "")] "m1");
    [reflexivity | reflexivity | simpl; lia | simpl; lia].
Defined.

(** C5, as stated, fails: the timer does not run while the send request
    is in flight.  A send request that is rejected makes the call reject
    with that error, not with the timeout; a send request that gets no
    reply leaves the call pending however much time passes. *)
Lemma sendAndWait_timeout_needs_send_reply :
  phase
    (sendAndWait (Some 100)
       [Invoke; SendSettled (Rejected "connection closed"); Elapse 1000])
  = Done (Rejected "connection closed") /\
  "connection closed" <> timeout_error 100 /\
  phase (sendAndWait (Some 100) [Invoke; Elapse 1000; Elapse 2000])
  = AwaitingSend.
Proof. repeat split. discriminate. Qed.

End SendAndWaitResults.

(** ** Remote targets *)

Section TargetText.
Import Types Client.

Lemma append_nil (t : string) : "" +:+ t = t.
Proof. reflexivity. Qed.

Lemma append_cons (a : ascii) (s t : string) :
  String a s +:+ t = String a (s +:+ t).
Proof. reflexivity. Qed.

Lemma strip_prefix_app (p s : string) : strip_prefix p (p +:+ s) = Some s.
Proof.
  induction p as [|a p IH]; [done|]. simpl. by rewrite Ascii.eqb_refl.
Qed.

Lemma strip_prefix_Some (p s r : string) :
  strip_prefix p s = Some r -> s = p +:+ r.
Proof.
  revert s. induction p as [|a p IH]; intros s; simpl.
  - by intros [= ->].
  - destruct s as [|b s]; [done|].
    destruct (Ascii.eqb a b) eqn:Hab; [|done].
    apply Ascii.eqb_eq in Hab as ->. intros H. by rewrite (IH s H).
Qed.

Lemma colon_free_app (s t : string) :
  colon_free (s +:+ t) = colon_free s && colon_free t.
Proof.
  induction s as [|a s IH]; [done|]. simpl. rewrite IH.
  by rewrite andb_assoc.
Qed.

Lemma split_colon_free (t : string) :
  colon_free t = true -> split_colon t = [t].
Proof.
  induction t as [|a t IH]; [done|]. simpl.
  intros [Ha Ht]%andb_prop. apply negb_true_iff in Ha.
  by rewrite Ha, (IH Ht).
Qed.

Lemma split_colon_at_colon (s : string) :
  split_colon (String ":" s) = "" :: split_colon s.
Proof. reflexivity. Qed.

Lemma split_colon_at_other (c : ascii) (s : string) :
  Ascii.eqb c ":" = false ->
  split_colon (String c s) =
    match split_colon s with
    | x :: xs => String c x :: xs
    | [] => [String c ""]
    end.
Proof. intros H. simpl. by rewrite H. Qed.

Lemma split_host_port (h t : string) :
  colon_free h = true -> colon_free t = true ->
  split_colon (h +:+ ":" +:+ t) = [h; t].
Proof.
  intros Hh Ht. induction h as [|a h IH].
  - change (split_colon (String ":" t) = [""; t]).
    by rewrite split_colon_at_colon, (split_colon_free t Ht).
  - change (split_colon (String a (h +:+ ":" +:+ t)) = [String a h; t]).
    change (negb (Ascii.eqb a ":") && colon_free h = true) in Hh.
    apply andb_prop in Hh as [Ha Hh]. apply negb_true_iff in Ha.
    by rewrite (split_colon_at_other _ _ Ha), (IH Hh).
Qed.

Lemma split_colon_nonnil (s : string) : split_colon s <> [].
Proof.
  destruct s as [|a s]; [done|]. simpl.
  destruct (Ascii.eqb a ":"); [done|]. by destruct (split_colon s).
Qed.

Lemma split_colon_one (s t : string) :
  split_colon s = [t] -> s = t /\ colon_free t = true.
Proof.
  revert t. induction s as [|a s IH]; intros t.
  - by intros [= <-].
  - destruct (Ascii.eqb a ":") eqn:Ha.
    + apply Ascii.eqb_eq in Ha as ->. rewrite split_colon_at_colon.
      intros [= _ Hs]. by apply split_colon_nonnil in Hs.
    + rewrite (split_colon_at_other _ _ Ha).
      destruct (split_colon s) as [|x xs] eqn:Hs.
      * by apply split_colon_nonnil in Hs.
      * intros [= <- ->]. destruct (IH x eq_refl) as [-> Hx].
        split; [done|]. simpl. by rewrite Ha, Hx.
Qed.

Lemma split_colon_two (s h t : string) :
  split_colon s = [h; t] ->
  s = h +:+ ":" +:+ t /\ colon_free h = true /\ colon_free t = true.
Proof.
  revert h. induction s as [|a s IH]; intros h; [done|].
  destruct (Ascii.eqb a ":") eqn:Ha.
  - apply Ascii.eqb_eq in Ha as ->. rewrite split_colon_at_colon.
    intros [= <- Hs].
    by destruct (split_colon_one s t Hs) as [-> Ht].
  - rewrite (split_colon_at_other _ _ Ha).
    destruct (split_colon s) as [|x xs] eqn:Hs; [done|].
    intros [= <- ->]. destruct (IH x eq_refl) as (-> & Hx & Ht).
    split; [done|]. simpl. by rewrite Ha, Hx.
Qed.

(** The first colon of a text is where it is. *)
Lemma first_colon (h h' t t' : string) :
  colon_free h = true -> colon_free h' = true ->
  h +:+ ":" +:+ t = h' +:+ ":" +:+ t' -> h = h' /\ t = t'.
Proof.
  revert h'. induction h as [|a h IH]; intros [|b h'] Hh Hh';
    rewrite ?append_cons, ?append_nil.
  - by intros [= ->].
  - intros [= <- _]. by simpl in Hh'.
  - intros [= -> _]. by simpl in Hh.
  - intros [= -> Heq]. simpl in Hh, Hh'.
    apply andb_prop in Hh as [_ Hh]. apply andb_prop in Hh' as [_ Hh'].
    destruct (IH h' Hh Hh' Heq) as [-> ->]. done.
Qed.

Lemma uint_text_digits (d : uint) :
  all_digits (NilEmpty.string_of_uint d) = true.
Proof. induction d; simpl; auto. Qed.

Lemma uint_text (d : uint) :
  digits_only (NilZero.string_of_uint d) = true.
Proof.
  unfold digits_only.
  destruct d; try reflexivity; simpl; apply uint_text_digits.
Qed.

Lemma all_digits_signed (s : string) :
  all_digits s = true -> signed_digits s = true.
Proof.
  induction s as [|c s IH]; [done|]. simpl.
  intros [Hc Hs]%andb_prop. unfold is_sign_or_digit.
  by rewrite Hc, (IH Hs).
Qed.

Lemma integer_text_signed (z : Z) : signed_digits (integer_text z) = true.
Proof.
  unfold integer_text.
  destruct (Z.to_int z) as [d|d]; simpl.
  - apply all_digits_signed.
    pose proof (uint_text d) as H. unfold digits_only in H.
    by apply andb_prop in H as [_ H].
  - apply all_digits_signed.
    pose proof (uint_text d) as H. unfold digits_only in H.
    by apply andb_prop in H as [_ H].
Qed.

Lemma integer_text_digits (z : Z) :
  (0 <= z)%Z -> digits_only (integer_text z) = true.
Proof.
  intros Hz. unfold integer_text.
  destruct z as [|p|p]; simpl; [done|apply uint_text|lia].
Qed.

Lemma signed_colon_free (s : string) :
  signed_digits s = true -> colon_free s = true.
Proof.
  induction s as [|c s IH]; [done|]. simpl.
  intros [Hc Hs]%andb_prop. rewrite (IH Hs), andb_true_r.
  destruct (Ascii.eqb c ":") eqn:Heq; [|done].
  apply Ascii.eqb_eq in Heq as ->. done.
Qed.

Lemma integer_text_colon_free (z : Z) : colon_free (integer_text z) = true.
Proof. apply signed_colon_free, integer_text_signed. Qed.

Lemma parse_integer_text (z : Z) : parse_integer (integer_text z) = Some z.
Proof.
  unfold parse_integer, integer_text.
  rewrite NilZero.isi.
  - simpl. by rewrite DecimalZ.of_to.
  - destruct z as [|p|p]; simpl; try done.
    intros [= H]. by apply DecimalPos.Unsigned.to_uint_nonnil in H.
  - destruct z as [|p|p]; simpl; try done.
    intros [= H]. by apply DecimalPos.Unsigned.to_uint_nonnil in H.
Qed.

Lemma check_port_text (h : string) (z : Z) :
  check_port h (integer_text z) =
    if port_in_range z then inr (h, z) else inl InvalidPort.
Proof. unfold check_port. by rewrite parse_integer_text. Qed.

(** A text without colon carries no scheme. *)
Lemma no_scheme_colon_free (scheme s : string) :
  colon_free scheme = false -> colon_free s = true ->
  strip_prefix scheme s = None.
Proof.
  intros Hscheme Hs.
  destruct (strip_prefix scheme s) as [r|] eqn:H; [|done].
  apply strip_prefix_Some in H. subst s.
  rewrite colon_free_app, Hscheme in Hs. done.
Qed.

(** [host:port] with a decimal port carries no scheme. *)
Lemma no_scheme_host_port (h t : string) :
  colon_free h = true -> signed_digits t = true ->
  strip_prefix "http://" (h +:+ ":" +:+ t) = None /\
  strip_prefix "https://" (h +:+ ":" +:+ t) = None.
Proof.
  intros Hh Ht. split.
  - destruct (strip_prefix _ _) as [r|] eqn:H; [|done].
    apply strip_prefix_Some in H.
    change ("http://" +:+ r) with ("http" +:+ ":" +:+ ("//" +:+ r)) in H.
    destruct (first_colon h "http" t ("//" +:+ r) Hh eq_refl H) as [_ ->].
    done.
  - destruct (strip_prefix _ _) as [r|] eqn:H; [|done].
    apply strip_prefix_Some in H.
    change ("https://" +:+ r) with ("https" +:+ ":" +:+ ("//" +:+ r)) in H.
    destruct (first_colon h "https" t ("//" +:+ r) Hh eq_refl H) as [_ ->].
    done.
Qed.

Lemma digit_not_sign (c : ascii) :
  is_digit c = true -> Ascii.eqb c "-" = false.
Proof.
  intros Hc. destruct (Ascii.eqb c "-") eqn:Heq; [|done].
  apply Ascii.eqb_eq in Heq. subst c. discriminate Hc.
Qed.

Lemma digits_are_number (s : string) :
  digits_only s = true -> is_number s = true.
Proof.
  destruct s as [|c rest]; [done|]. intros Hs. simpl.
  assert (is_digit c = true) as Hc.
  { unfold digits_only in Hs. simpl in Hs. by apply andb_prop in Hs as [Hc _]. }
  by rewrite (digit_not_sign c Hc).
Qed.

Lemma number_signed (t : string) :
  is_number t = true -> signed_digits t = true.
Proof.
  destruct t as [|c rest]; [done|]. simpl.
  destruct (Ascii.eqb c "-") eqn:Hc.
  - unfold digits_only. intros [_ Hrest]%andb_prop.
    unfold is_sign_or_digit. rewrite Hc, orb_true_r. simpl.
    by apply all_digits_signed.
  - unfold digits_only. simpl. intros H.
    by apply (all_digits_signed (String c rest)).
Qed.

Lemma number_colon_free (t : string) :
  is_number t = true -> colon_free t = true.
Proof. intros H. by apply signed_colon_free, number_signed. Qed.

Lemma integer_text_number (z : Z) : is_number (integer_text z) = true.
Proof.
  unfold integer_text.
  destruct (Z.to_int z) as [d|d]; simpl.
  - apply digits_are_number, uint_text.
  - apply uint_text.
Qed.

Lemma digit_parses (c : ascii) (d : uint) :
  is_digit c = true -> is_Some (uint_of_char c (Some d)).
Proof.
  destruct c as [[] [] [] [] [] [] [] []]; intros H;
    first [discriminate H | by eexists].
Qed.

Lemma digits_parse (s : string) :
  all_digits s = true -> is_Some (NilEmpty.uint_of_string s).
Proof.
  induction s as [|c s IH]; [by eexists|]. simpl.
  intros [Hc Hs]%andb_prop. destruct (IH Hs) as [d ->].
  by apply digit_parses.
Qed.

Lemma digits_only_parse (s : string) :
  digits_only s = true -> is_Some (NilZero.uint_of_string s).
Proof.
  unfold digits_only. intros [Hne Hs]%andb_prop.
  destruct s as [|c s]; [done|]. by apply digits_parse.
Qed.

Lemma int_of_string_cons (c : ascii) (rest : string) :
  NilZero.int_of_string (String c rest) =
    if Ascii.eqb c "-" then option_map Neg (NilZero.uint_of_string rest)
    else option_map Pos (NilZero.uint_of_string (String c rest)).
Proof. reflexivity. Qed.

(** What is written as a number is read as an integer. *)
Lemma number_parses (t : string) :
  is_number t = true -> is_Some (parse_integer t).
Proof.
  destruct t as [|c rest]; [done|]. unfold parse_integer.
  rewrite int_of_string_cons. cbn [is_number].
  destruct (Ascii.eqb c "-") eqn:Hc.
  - intros [d Hd]%digits_only_parse. rewrite Hd. by eexists.
  - intros [d Hd]%digits_only_parse. rewrite Hd. by eexists.
Qed.

Lemma not_number_host_port (h t : string) :
  is_number (h +:+ ":" +:+ t) = false.
Proof.
  destruct (is_number _) eqn:H; [|done].
  apply number_colon_free in H. rewrite !colon_free_app in H.
  simpl in H. by rewrite andb_false_r in H.
Qed.

Lemma parse_host_port_target (h t : string) :
  is_empty h = false -> colon_free h = true -> is_number t = true ->
  parse_host_port (h +:+ ":" +:+ t) = check_port h t.
Proof.
  intros Hne Hh Ht. unfold parse_host_port.
  by rewrite (split_host_port _ _ Hh (number_colon_free t Ht)), Hne, Ht.
Qed.

(** A text of the grammar is resolved to its host and the value of its
    port text, checked against the range. *)
Lemma parseCliUrl_target (url h t : string) :
  RemoteTarget url h t -> parseCliUrl url = check_port h t.
Proof.
  intros [p Hp|h' p Hne Hh Hp|h' p Hne Hh Hp|h' p Hne Hh Hp];
    unfold parseCliUrl.
  - rewrite (no_scheme_colon_free "http://");
      [|done|by apply number_colon_free].
    rewrite (no_scheme_colon_free "https://");
      [|done|by apply number_colon_free].
    by rewrite Hp.
  - destruct (no_scheme_host_port h' p Hh (number_signed p Hp)) as [-> ->].
    rewrite not_number_host_port. by apply parse_host_port_target.
  - rewrite (strip_prefix_app "http://"). by apply parse_host_port_target.
  - assert (strip_prefix "http://" ("https://" +:+ h' +:+ ":" +:+ p) = None)
      as -> by reflexivity.
    rewrite (strip_prefix_app "https://"). by apply parse_host_port_target.
Qed.

Lemma parseCliUrl_port (z : Z) :
  parseCliUrl (integer_text z) =
    if port_in_range z then inr (localhost, z) else inl InvalidPort.
Proof.
  rewrite (parseCliUrl_target _ localhost (integer_text z)).
  - apply check_port_text.
  - apply target_port, integer_text_number.
Qed.

Lemma parseCliUrl_host_port (h : string) (z : Z) :
  is_empty h = false -> colon_free h = true ->
  parseCliUrl (h +:+ ":" +:+ integer_text z) =
    if port_in_range z then inr (h, z) else inl InvalidPort.
Proof.
  intros Hne Hh. rewrite (parseCliUrl_target _ h (integer_text z)).
  - apply check_port_text.
  - by apply target_host_port; [| |apply integer_text_number].
Qed.

Lemma parseCliUrl_http (h : string) (z : Z) :
  is_empty h = false -> colon_free h = true ->
  parseCliUrl ("http://" +:+ h +:+ ":" +:+ integer_text z) =
    if port_in_range z then inr (h, z) else inl InvalidPort.
Proof.
  intros Hne Hh. rewrite (parseCliUrl_target _ h (integer_text z)).
  - apply check_port_text.
  - by apply target_http; [| |apply integer_text_number].
Qed.

Lemma parseCliUrl_https (h : string) (z : Z) :
  is_empty h = false -> colon_free h = true ->
  parseCliUrl ("https://" +:+ h +:+ ":" +:+ integer_text z) =
    if port_in_range z then inr (h, z) else inl InvalidPort.
Proof.
  intros Hne Hh. rewrite (parseCliUrl_target _ h (integer_text z)).
  - apply check_port_text.
  - by apply target_https; [| |apply integer_text_number].
Qed.

Lemma parse_host_port_accepts (rest : string) :
  parse_host_port rest <> inl InvalidTarget ->
  exists h t, rest = h +:+ ":" +:+ t /\ is_empty h = false /\
              colon_free h = true /\ is_number t = true.
Proof.
  unfold parse_host_port.
  destruct (split_colon rest) as [|h [|t [|x xs]]] eqn:Hsplit; try done.
  destruct (is_empty h) eqn:Hne; [done|].
  destruct (is_number t) eqn:Ht; [|done]. intros _.
  destruct (split_colon_two _ _ _ Hsplit) as (-> & Hh & _).
  by exists h, t.
Qed.

(** The resolver accepts only the forms of the grammar. *)
Lemma parseCliUrl_accepts (url : string) :
  parseCliUrl url <> inl InvalidTarget -> exists h t, RemoteTarget url h t.
Proof.
  unfold parseCliUrl.
  destruct (strip_prefix "http://" url) as [rest|] eqn:Hhttp.
  { intros H. apply strip_prefix_Some in Hhttp. subst url.
    destruct (parse_host_port_accepts rest H) as (h & t & -> & ? & ? & ?).
    exists h, t. by apply target_http. }
  destruct (strip_prefix "https://" url) as [rest|] eqn:Hhttps.
  { intros H. apply strip_prefix_Some in Hhttps. subst url.
    destruct (parse_host_port_accepts rest H) as (h & t & -> & ? & ? & ?).
    exists h, t. by apply target_https. }
  destruct (is_number url) eqn:Hnumber.
  { intros _. exists localhost, url. by apply target_port. }
  intros H.
  destruct (parse_host_port_accepts url H) as (h & t & -> & ? & ? & ?).
  exists h, t. by apply target_host_port.
Qed.

Lemma check_port_not_target_error (h t : string) :
  check_port h t <> inl InvalidTarget.
Proof.
  unfold check_port. destruct (parse_integer t) as [z|]; [|done].
  by destruct (port_in_range z).
Qed.

End TargetText.

Section ExternalServer.
Import Types Client.

Lemma hands_off_perform (c : CopilotClient) (op : Operation) :
  hands_off c = true -> hands_off (perform c op) = true.
Proof.
  destruct c as [[m h p path] auto st running tr ss acts].
  unfold hands_off. simpl.
  intros [[Hm Hrun]%andb_prop Hacts]%andb_prop.
  destruct m; try discriminate Hm.
  apply negb_true_iff in Hrun, Hacts. simpl in Hrun. subst running.
  assert (forall a, touches_process a = false ->
            existsb touches_process (acts ++ [a]) = false) as Hact.
  { intros a Ha. rewrite existsb_app, Hacts. simpl. by rewrite Ha. }
  destruct op as [env|env| |env cfg]; simpl.
  - unfold start, handshake. simpl.
    destruct st; simpl; destruct (handshake_succeeds env); simpl;
      rewrite ?Hact, ?Hacts; done.
  - unfold stop, close_transport, end_process. simpl.
    destruct tr; simpl; rewrite ?Hact, ?Hacts; done.
  - unfold forceStop, close_transport, kill_process. simpl.
    destruct tr; simpl; rewrite ?Hact, ?Hacts; done.
  - unfold createSession, start, handshake, register_session. simpl.
    destruct st, auto; simpl; destruct (handshake_succeeds env); simpl;
      rewrite ?Hact, ?Hacts; done.
Qed.

Lemma hands_off_perform_all (ops : list Operation) (c : CopilotClient) :
  hands_off c = true -> hands_off (perform_all ops c) = true.
Proof.
  unfold perform_all. revert c.
  induction ops as [|op ops IH]; intros c Hc; [done|].
  simpl. apply IH. by apply hands_off_perform.
Qed.

Lemma newClient_remote (options : CopilotClientOptions)
  (target h : string) (p : Z) :
  cliUrl options = Some target ->
  cliPath options = None -> useStdio options = None ->
  parseCliUrl target = inr (h, p) ->
  newClient options =
    inr (mkClient (mkConfig ExternalTcp h p "")
           (default true (autoStart options)) disconnected false false ∅ []).
Proof.
  intros Hurl Hpath Hstdio Hparse.
  unfold newClient, resolve_config.
  by rewrite Hurl, Hpath, Hstdio, Hparse.
Qed.

(** C6: for a host and a port in [1, 65535], each of the four forms of a
    remote target resolves to that host and that port, [localhost]
    standing for the host when there is none; a client built from a
    remote target is externally managed, and whatever is done with it, it
    never spawns, signals or kills a process.  So do ["8080"],
    ["127.0.0.1:9000"] and ["https://example.com:443"]. *)
Theorem remote_target_resolved (h : string) (p : Z) :
  is_empty h = false -> colon_free h = true ->
  (1 <= p <= 65535)%Z ->
  let text := integer_text p in
  parseCliUrl text = inr (localhost, p) /\
  parseCliUrl (h +:+ ":" +:+ text) = inr (h, p) /\
  parseCliUrl ("http://" +:+ h +:+ ":" +:+ text) = inr (h, p) /\
  parseCliUrl ("https://" +:+ h +:+ ":" +:+ text) = inr (h, p) /\
  (forall options target host',
     cliUrl options = Some target ->
     cliPath options = None -> useStdio options = None ->
     parseCliUrl target = inr (host', p) ->
     exists c,
       newClient options = inr c /\
       host (config c) = host' /\ port (config c) = p /\
       isExternalServer (config c) = true /\
       forall ops,
         existsb touches_process (actions (perform_all ops c)) = false) /\
  parseCliUrl "8080" = inr ("localhost", 8080%Z) /\
  parseCliUrl "127.0.0.1:9000" = inr ("127.0.0.1", 9000%Z) /\
  parseCliUrl "https://example.com:443" = inr ("example.com", 443%Z).
Proof.
  intros Hne Hh Hp text. subst text.
  assert (port_in_range p = true) as Hrange.
  { unfold port_in_range. apply andb_true_intro. split; lia. }
  repeat split.
  - by rewrite parseCliUrl_port, Hrange.
  - rewrite parseCliUrl_host_port; [by rewrite Hrange|done|done].
  - rewrite parseCliUrl_http; [by rewrite Hrange|done|done].
  - rewrite parseCliUrl_https; [by rewrite Hrange|done|done].
  - intros options target host' Hurl Hpath Hstdio Hparse.
    eexists. split; [by eapply newClient_remote|].
    repeat split. intros ops.
    match goal with
    | |- context [perform_all ops ?c] =>
        pose proof (hands_off_perform_all ops c eq_refl) as H
    end.
    unfold hands_off in H. apply andb_prop in H as [_ H].
    by apply negb_true_iff in H.
Qed.

Lemma remote_target_resolved_witness :
  parseCliUrl "127.0.0.1:9000" = inr ("127.0.0.1", 9000%Z) /\
  parseCliUrl "http://localhost:7000" = inr ("localhost", 7000%Z).
Proof.
  split.
  - apply (proj1 (proj2 (remote_target_resolved "127.0.0.1" 9000
                           eq_refl eq_refl ltac:(lia)))).
  - apply (proj1 (proj2 (proj2 (remote_target_resolved "localhost" 7000
                                  eq_refl eq_refl ltac:(lia))))).
Defined.


Lemma not_a_target (url : string) :
  is_number url = false -> colon_free url = true ->
  ~ (exists h t, RemoteTarget url h t).
Proof.
  intros Hnumber Hcolon (h & t & Htarget).
  destruct Htarget as [p Hp|h p _ _ _|h p _ _ _|h p _ _ _].
  - congruence.
  - rewrite !colon_free_app in Hcolon. simpl in Hcolon.
    by rewrite andb_false_r in Hcolon.
  - discriminate Hcolon.
  - discriminate Hcolon.
Qed.


End ExternalServer.

(** * Further properties of [session.ts] *)

(** ** Registering and finding tools *)

Section Tools.
Import Types Session.

Lemma register_lookup (ts : list Tool) (m0 : gmap string ToolHandler)
  (n : string) :
  foldl (λ m tool, <[name tool := handler tool]> m) m0 ts !! n =
    match last (filter (λ tool, name tool = n) ts) with
    | Some tool => Some (handler tool)
    | None => m0 !! n
    end.
Proof.
  induction ts as [|tool ts IH] using rev_ind; [done|].
  rewrite foldl_app, filter_app. simpl.
  destruct (decide (name tool = n)) as [Heq|Hne].
  - rewrite filter_cons_True, filter_nil, last_snoc; [|done].
    rewrite Heq. apply lookup_insert_eq.
  - rewrite filter_cons_False, filter_nil, app_nil_r; [|done].
    by rewrite lookup_insert_ne.
Qed.

(** [registerTools] replaces whatever was registered: afterwards a name is
    bound to the handler of the last tool of the list that bears it, and to
    nothing when no tool of the list bears it or when no list is given. *)
Theorem registerTools_last_wins (tools : option (list Tool))
  (s : CopilotSession) (n : string) :
  getToolHandler n (registerTools tools s) =
    match tools with
    | None => None
    | Some ts => handler <$> last (filter (λ tool, name tool = n) ts)
    end.
Proof.
  unfold getToolHandler, registerTools.
  destruct tools as [ts|]; simpl; [|apply lookup_empty].
  rewrite register_lookup, lookup_empty. by destruct (last _).
Qed.

Lemma last_with_name (ts : list Tool) (tool : Tool) :
  NoDup (name <$> ts) -> tool ∈ ts ->
  last (filter (λ t, name t = name tool) ts) = Some tool.
Proof.
  induction ts as [|t ts IH]; intros Hnodup Hin.
  - by apply elem_of_nil in Hin.
  - simpl in Hnodup. apply NoDup_cons in Hnodup as [Hfresh Hnodup].
    apply elem_of_cons in Hin as [->|Hin].
    + rewrite filter_cons_True; [|done].
      assert (filter (λ t0, name t0 = name t) ts = []) as ->; [|done].
      destruct (filter _ ts) as [|x l] eqn:Hf; [done|].
      assert (x ∈ filter (λ t0, name t0 = name t) ts) as Hx
        by (rewrite Hf; left).
      apply list_elem_of_filter in Hx as [Hname Hx].
      exfalso. apply Hfresh. rewrite <- Hname.
      by apply list_elem_of_fmap_2.
    + rewrite filter_cons_False; [by apply IH|].
      intros Heq. apply Hfresh. rewrite Heq.
      by apply list_elem_of_fmap_2.
Qed.

(** Tools made by [defineTool] are registered under the name they end up
    with: the [name] argument, unless the config object carries a [name]
    property of its own, which then replaces it.  When these names differ
    from one another, every tool is found under its name after
    [registerTools], with the handler it was defined with, whatever the
    session held before. *)
Theorem defineTool_registered_found (defs : list (string * ToolConfig))
  (s : CopilotSession) (n : string) (config : ToolConfig) :
  NoDup ((λ d, name (defineTool d.1 d.2)) <$> defs) ->
  (n, config) ∈ defs ->
  let registered :=
    registerTools (Some ((λ d, defineTool d.1 d.2) <$> defs)) s in
  getToolHandler (name (defineTool n config)) registered
    = Some (tool_handler config) /\
  (tool_name config = None -> name (defineTool n config) = n) /\
  (forall own, tool_name config = Some own ->
     name (defineTool n config) = own).
Proof.
  intros Hnodup Hin registered. subst registered.
  split; [|split].
  - rewrite registerTools_last_wins.
    rewrite (last_with_name _ (defineTool n config)); [done| |].
    + by rewrite <- list_fmap_compose.
    + by apply (list_elem_of_fmap_2 (λ d, defineTool d.1 d.2) defs
                  (n, config)).
  - unfold defineTool. simpl. by intros ->.
  - unfold defineTool. simpl. by intros own ->.
Qed.

Lemma defineTool_registered_found_witness :
  let echo := mkToolConfig None None None (λ a _, Returns a) in
  let fail :=
    mkToolConfig (Some "always_fails") (Some "fails") None
      (λ _ _, Throws "no") in
  let registered :=
    registerTools
      (Some ((λ d, defineTool d.1 d.2) <$> [("echo", echo); ("fail", fail)]))
      (new "s1" (mkConnection (λ _ _, NeverSettles))) in
  getToolHandler "always_fails" registered = Some (tool_handler fail).
Proof.
  intros echo fail registered.
  apply (proj1 (defineTool_registered_found
                  [("echo", echo); ("fail", fail)]
                  (new "s1" (mkConnection (λ _ _, NeverSettles)))
                  "fail" fail
                  ltac:(simpl; apply NoDup_cons; split;
                        [intros H%list_elem_of_singleton; discriminate H
                        |apply NoDup_singleton])
                  ltac:(apply elem_of_cons; right; apply elem_of_cons;
                        by left))).
Defined.

End Tools.

(** ** Subscribing and unsubscribing *)

Section Subscriptions.
Import Types Session.

Lemma delete_twice (h : JSSet.HandlerId) (hs : JSSet.t) :
  JSSet.delete h (JSSet.delete h hs) = JSSet.delete h hs.
Proof.
  unfold JSSet.delete. rewrite <- list_fmap_compose.
  apply list_fmap_ext. intros i e _. simpl.
  destruct (bool_decide (e = Some h)) eqn:He; [done|]. by rewrite He.
Qed.

(** The subscribers form an ordered set: [on] puts a new handler last and
    leaves a handler that is already subscribed where it is; the
    unsubscribe closure removes its handler and keeps the others in their
    order, however often [on] was called with that handler; calling the
    closure again changes nothing. *)
Theorem on_unsubscribe_ordered_set (h : JSSet.HandlerId)
  (s : CopilotSession) :
  let subscribers := λ s, JSSet.values (eventHandlers s) in
  subscribers (on h s) =
    (if bool_decide (h ∈ subscribers s) then subscribers s
     else subscribers s ++ [h]) /\
  subscribers (unsubscribe h s) = filter (λ x, x ≠ h) (subscribers s) /\
  (h ∉ subscribers (unsubscribe h (on h (on h s)))) /\
  unsubscribe h (unsubscribe h s) = unsubscribe h s.
Proof.
  intros subscribers. subst subscribers. simpl.
  split; [apply values_add|]. split; [apply values_delete|]. split.
  - rewrite values_delete. simpl. rewrite list_elem_of_filter. by intros [? _].
  - unfold unsubscribe, set_eventHandlers. simpl. by rewrite delete_twice.
Qed.

Section OnceHandlers.
Context {World : Type}.
Variable run_handler :
  JSSet.HandlerId -> SessionEvent -> World -> HandlerRun World.

Lemma filter_all {A} (P : A -> Prop) `{forall x, Decision (P x)}
  (l : list A) :
  (forall x, x ∈ l -> P x) -> filter P l = l.
Proof.
  induction l as [|a l IH]; intros Hall; [done|].
  rewrite filter_cons_True; [|apply Hall; left].
  f_equal. apply IH. intros x Hx. apply Hall. by right.
Qed.

Lemma values_drop_delete (h : JSSet.HandlerId) (hs : JSSet.t) (idx : nat) :
  NoDup (JSSet.values hs) -> hs !! idx = Some (Some h) ->
  JSSet.values (drop (S idx) (JSSet.delete h hs)) =
    JSSet.values (drop (S idx) hs)
  /\ h ∉ JSSet.values (drop (S idx) hs).
Proof.
  intros Hnodup Hidx.
  assert (h ∉ JSSet.values (drop (S idx) hs)) as Hfresh.
  { rewrite <- (take_drop_middle hs idx (Some h) Hidx) in Hnodup.
    rewrite values_app in Hnodup. apply NoDup_app in Hnodup as (_ & _ & Hn).
    change (JSSet.values (Some h :: drop (S idx) hs))
      with (h :: JSSet.values (drop (S idx) hs)) in Hn.
    by apply NoDup_cons in Hn as [? _]. }
  split; [|done].
  unfold JSSet.delete. rewrite <- fmap_drop.
  change ((λ e, if bool_decide (e = Some h) then None else e) <$>
          drop (S idx) hs) with (JSSet.delete h (drop (S idx) hs)).
  rewrite values_delete. simpl. apply filter_all.
  intros x Hx ->. done.
Qed.

Lemma dispatch_from_once (event : SessionEvent) (fuel : nat) :
  forall (idx : nat) (hs : JSSet.t) (w : World) log,
    NoDup (JSSet.values hs) ->
    (forall h, h ∈ JSSet.values hs ->
       quiet run_handler h \/ once run_handler h) ->
    length hs - idx < fuel ->
    exists d,
      dispatch_from run_handler fuel idx event hs w log = Some d /\
      invoked d = log ++ ((λ h, (h, event)) <$> JSSet.values (drop idx hs)) /\
      (forall x, x ∈ JSSet.values (handlers_after d) -> x ∈ JSSet.values hs) /\
      (forall x, x ∈ JSSet.values (drop idx hs) -> once run_handler x ->
         x ∉ JSSet.values (handlers_after d)) /\
      (forall x, x ∈ JSSet.values hs -> quiet run_handler x ->
         x ∈ JSSet.values (handlers_after d)).
Proof.
  induction fuel as [|fuel IH]; intros idx hs w log Hnodup Hkind Hfuel; [lia|].
  simpl. destruct (hs !! idx) as [[h|]|] eqn:Hidx.
  - rewrite guarded_None.
    apply lookup_lt_Some in Hidx as Hlt.
    assert (h ∈ JSSet.values hs) as Hin.
    { apply elem_of_values. by eapply list_elem_of_lookup_2. }
    rewrite (drop_S _ _ _ Hidx).
    change (JSSet.values (Some h :: drop (S idx) hs))
      with (h :: JSSet.values (drop (S idx) hs)).
    destruct (Hkind h Hin) as [Hquiet|Honce].
    + rewrite (Hquiet event w). unfold apply_calls. simpl.
      destruct (IH (S idx) hs (world_after (run_handler h event w))
                  (log ++ [(h, event)]) Hnodup Hkind)
        as (d & Hd & Hinv & Hsub & Hgone & Hstay); [lia|].
      exists d. split; [done|]. split; [by rewrite Hinv, <- app_assoc|].
      split; [done|]. split; [|done].
      intros x [->|Hx]%elem_of_cons Hx1; [|by apply Hgone].
      specialize (Hquiet event w). specialize (Hx1 event w). congruence.
    + rewrite (Honce event w). unfold apply_calls. simpl.
      destruct (values_drop_delete h hs idx Hnodup Hidx) as [Hdrop Hfresh].
      assert (forall x, x ∈ JSSet.values (JSSet.delete h hs) ->
                x ≠ h /\ x ∈ JSSet.values hs) as Hdel.
      { intros x. rewrite values_delete. simpl. by rewrite list_elem_of_filter. }
      destruct (IH (S idx) (JSSet.delete h hs)
                  (world_after (run_handler h event w))
                  (log ++ [(h, event)]))
        as (d & Hd & Hinv & Hsub & Hgone & Hstay).
      { rewrite values_delete. simpl. by apply NoDup_filter. }
      { intros x Hx. apply Hkind. by apply Hdel. }
      { unfold JSSet.delete. rewrite length_fmap. lia. }
      exists d. split; [done|].
      split; [by rewrite Hinv, Hdrop, <- app_assoc|].
      split; [intros x Hx; by apply Hdel, Hsub|]. split.
      * intros x [->|Hx]%elem_of_cons Hx1.
        -- intros Hfinal. by destruct (Hdel _ (Hsub _ Hfinal)).
        -- apply Hgone; [by rewrite Hdrop|done].
      * intros x Hx Hquiet. apply Hstay; [|done].
        rewrite values_delete. simpl. apply list_elem_of_filter.
        split; [|done]. intros ->.
        specialize (Hquiet event w). specialize (Honce event w). congruence.
  - apply lookup_lt_Some in Hidx as Hlt.
    rewrite (drop_S _ _ _ Hidx).
    change (JSSet.values (None :: drop (S idx) hs))
      with (JSSet.values (drop (S idx) hs)).
    destruct (IH (S idx) hs w log Hnodup Hkind) as (d & Hd & Hrest); [lia|].
    by exists d.
  - apply lookup_ge_None in Hidx.
    eexists. split; [done|]. simpl. rewrite drop_ge; [|done]. simpl.
    rewrite app_nil_r. repeat split; try done.
    intros x Hx. by apply elem_of_nil in Hx.
Qed.

End OnceHandlers.

(** Handlers that unsubscribe themselves while they run do not disturb a
    dispatch: when every subscriber either leaves the subscriber set alone
    or calls its own unsubscribe closure, each subscriber is invoked exactly
    once with the event, in registration order, and afterwards the
    subscribers are those that left the set alone. *)
Theorem dispatchEvent_once_handlers {World : Type}
  (run_handler : JSSet.HandlerId -> SessionEvent -> World -> HandlerRun World)
  (registrations : list SetCall) (event : SessionEvent)
  (s : CopilotSession) (w : World) :
  eventHandlers s = apply_calls registrations JSSet.empty ->
  (forall h, h ∈ subscribers_in_order registrations ->
     quiet run_handler h \/ once run_handler h) ->
  exists d,
    _dispatchEvent run_handler (S (length (eventHandlers s))) event s w
      = Some d /\
    invoked d = (λ h, (h, event)) <$> subscribers_in_order registrations /\
    (forall h, h ∈ JSSet.values (handlers_after d) <->
       h ∈ subscribers_in_order registrations /\ quiet run_handler h).
Proof.
  intros Hs Hkind.
  assert (JSSet.values (eventHandlers s) = subscribers_in_order registrations)
    as Hvalues.
  { rewrite Hs. by rewrite values_apply_calls. }
  unfold _dispatchEvent.
  destruct (dispatch_from_once run_handler event
              (S (length (eventHandlers s))) 0 (eventHandlers s) w [])
    as (d & Hd & Hinv & Hsub & Hgone & Hstay).
  { rewrite Hvalues. apply subscribers_in_order_NoDup. }
  { intros h Hh. apply Hkind. by rewrite <- Hvalues. }
  { lia. }
  rewrite drop_0, Hvalues in *.
  exists d. split; [done|]. split; [done|].
  intros h. split.
  - intros Hh. specialize (Hsub h Hh). split; [done|].
    destruct (Hkind h Hsub) as [Hquiet|Honce]; [done|].
    by destruct (Hgone h Hsub Honce).
  - intros [Hh Hquiet]. by apply Hstay.
Qed.

Lemma dispatchEvent_once_handlers_witness :
  let run := λ (h : JSSet.HandlerId) (_ : SessionEvent) (w : nat),
               mkRun (S w)
                 (if Nat.eqb h 1 then [CallUnsubscribe h] else []) None in
  let s := on 2 (on 1 (new "s1" (mkConnection (λ _ _, NeverSettles)))) in
  let event := mkEvent "session.idle" "" in
  exists d,
    _dispatchEvent run (S (length (eventHandlers s))) event s 0 = Some d /\
    invoked d = [(1, event); (2, event)] /\
    (forall h, h ∈ JSSet.values (handlers_after d) <->
       h ∈ [1; 2] /\ quiet run h).
Proof.
  intros run s event.
  apply (dispatchEvent_once_handlers run [CallOn 1; CallOn 2] event s 0
           eq_refl).
  intros h [->|[->|Hh]%elem_of_cons]%elem_of_cons.
  - right. intros e w. reflexivity.
  - left. intros e w. reflexivity.
  - by apply elem_of_nil in Hh.
Defined.

End Subscriptions.

(** ** A destroyed session *)

Section Destroyed.
Import Types Session.

Lemma lookup_clear (hs : JSSet.t) (idx : nat) :
  JSSet.clear hs !! idx = (λ _, None) <$> hs !! idx.
Proof. unfold JSSet.clear. apply list_lookup_fmap. Qed.

Lemma dispatch_from_cleared {World : Type}
  (run_handler : JSSet.HandlerId -> SessionEvent -> World -> HandlerRun World)
  (event : SessionEvent) (hs : JSSet.t) (w : World) log (fuel : nat) :
  forall idx,
    length hs - idx < fuel ->
    dispatch_from run_handler fuel idx event (JSSet.clear hs) w log =
      Some (mkDispatched World (JSSet.clear hs) w log None).
Proof.
  induction fuel as [|fuel IH]; intros idx Hfuel; [lia|].
  cbn [dispatch_from]. rewrite lookup_clear.
  destruct (hs !! idx) as [e|] eqn:Hidx; simpl; [|done].
  apply lookup_lt_Some in Hidx. apply IH. lia.
Qed.

(** After [destroy] went through, the session is inert: an event
    dispatched to it reaches no handler and changes nothing, no tool is
    found under any name, and every permission request is denied. *)
Theorem destroyed_session_inert (s : CopilotSession) (reply : unknown) :
  sendRequest (connection s) "session.destroy" (sessionId s) = resolve reply ->
  let s' := (destroy s).1 in
  (forall (World : Type) run_handler event (w : World),
     _dispatchEvent run_handler (S (length (eventHandlers s'))) event s' w =
       Some (mkDispatched World (eventHandlers s') w [] None)) /\
  (forall n, getToolHandler n s' = None) /\
  (forall request, _handlePermissionRequest request s' = (s', resolve denial)).
Proof.
  intros Hreply s'.
  assert (s' = clear_local s) as ->.
  { subst s'. unfold destroy, bind, await, update. by rewrite Hreply. }
  split; [|split].
  - intros World run_handler event w. unfold _dispatchEvent.
    change (eventHandlers (clear_local s))
      with (JSSet.clear (eventHandlers s)).
    apply dispatch_from_cleared.
    unfold JSSet.clear. rewrite length_fmap. lia.
  - intros n. apply lookup_empty.
  - done.
Qed.

Lemma destroyed_session_inert_witness :
  let s :=
    on 7
      (registerTools (Some [mkTool "echo" None None (λ a _, Returns a)])
         (registerPermissionHandler
            (Some (λ _ _, Returns (mkPermissionResult approved None)))
            (new "s1" (mkConnection (λ _ _, resolve "ok"))))) in
  getToolHandler "echo" (destroy s).1 = None.
Proof.
  intros s.
  apply (proj1 (proj2 (destroyed_session_inert s "ok" eq_refl))).
Defined.

End Destroyed.

(** ** More on [sendAndWait] *)

Section Calls.
Import Types Session.

Lemma listener_keeps_started (c : Closure) (e : SessionEvent) :
  sendStarted (listener c e) = sendStarted c.
Proof.
  unfold listener. destruct (sendStarted c) eqn:Hs; [|done].
  destruct (String.eqb _ _); [done|]. by destruct (String.eqb _ _).
Qed.

Lemma call_inv_step (timeout : option nat) (st : Waiting) (o : Occurrence) :
  call_inv timeout st -> call_inv timeout (step timeout st o).
Proof.
  intros (Hsub & Hout & Hphase).
  assert (call_inv timeout st) as Hst by done.
  destruct (phase st) as [| |timer|r] eqn:Hp.
  - (* not called *)
    unfold step. rewrite Hp. simpl in Hsub, Hout.
    destruct o as [|e|r|ms]; [|unfold deliver; by rewrite Hsub|done|done].
    unfold invoke, call_inv. simpl. by rewrite Hout.
  - (* the send request is in flight *)
    rewrite (step_awaiting_send _ _ _ Hp). simpl in Hsub.
    destruct o as [|e|[m|err]|ms]; [done| | | |done].
    + unfold deliver, call_inv. rewrite Hsub. simpl. rewrite Hp.
      by rewrite listener_keeps_started.
    + unfold after_send, call_inv.
      destruct (idleResolved (closure st)) eqn:Hidle; simpl; [done|].
      repeat split; try done.
      destruct timeout as [t|]; [by exists t|done].
    + unfold call_inv. simpl. done.
  - (* waiting for the idle notification *)
    destruct Hphase as (Hstarted & Hidle & Htimer).
    rewrite (step_awaiting_idle _ _ _ _ Hp). simpl in Hsub.
    destruct o as [|e|r|ms]; [done| |done|].
    + destruct (idleResolved (closure (deliver e st))) eqn:Hres.
      * unfold call_inv. simpl. split; [done|]. split; [|done].
        unfold deliver. by destruct (subscribed st).
      * unfold deliver in *. rewrite Hsub in *. simpl in *.
        unfold call_inv. simpl. rewrite Hp.
        by rewrite listener_keeps_started.
    + destruct timer as [remaining|]; [|done].
      destruct (remaining <=? ms)%nat; [by unfold call_inv|].
      unfold call_inv. simpl. repeat split; try done.
      destruct Htimer as (t & -> & Hle). exists t. split; [done|lia].
  - (* settled *)
    by rewrite (step_done _ _ _ _ Hp).
Qed.

Lemma call_inv_run (timeout : option nat) (trace : list Occurrence) :
  call_inv timeout (sendAndWait timeout trace).
Proof.
  unfold sendAndWait.
  induction trace as [|o trace IH] using rev_ind; [done|].
  rewrite foldl_app. by apply call_inv_step.
Qed.

(** Whatever happens during a call, its listener is subscribed exactly
    while the call is pending (it is removed when the call resolves and
    when it rejects), and the call sends one [session.send] request, no
    more and no other. *)
Theorem sendAndWait_listener_and_request (timeout : option nat)
  (trace : list Occurrence) :
  let st := sendAndWait timeout trace in
  subscribed st = pending (phase st) /\
  outbound st =
    match phase st with NotCalled => [] | _ => ["session.send"] end.
Proof.
  intros st. by destruct (call_inv_run timeout trace) as (? & ? & _).
Qed.

Lemma rejection_origin (timeout : option nat) (trace : list Occurrence)
  (e : string) :
  phase (sendAndWait timeout trace) = Done (Rejected e) ->
  SendSettled (Rejected e) ∈ trace \/ timeout_error <$> timeout = Some e.
Proof.
  unfold sendAndWait.
  induction trace as [|o trace IH] using rev_ind; [done|].
  rewrite foldl_app. simpl.
  pose proof (call_inv_run timeout trace) as (_ & _ & Hinv).
  unfold sendAndWait in Hinv.
  set (st := foldl (step timeout) initial trace) in *.
  assert (SendSettled (Rejected e) ∈ trace \/
          timeout_error <$> timeout = Some e ->
          SendSettled (Rejected e) ∈ trace ++ [o] \/
          timeout_error <$> timeout = Some e) as Hlift.
  { intros [H|H]; [left; apply elem_of_app; by left|by right]. }
  destruct (phase st) as [| |timer|r] eqn:Hp.
  - unfold step. rewrite Hp. destruct o as [|ev|r|ms]; try done.
    + intros H. unfold deliver in H. destruct (subscribed st); simpl in H;
        congruence.
    + intros H. congruence.
    + intros H. congruence.
  - rewrite (step_awaiting_send _ _ _ Hp).
    destruct o as [|ev|[m|err]|ms]; try congruence.
    + unfold deliver. destruct (subscribed st); simpl; congruence.
    + unfold after_send. destruct (idleResolved _); simpl; congruence.
    + simpl. intros [= ->]. left. apply elem_of_app. right. by left.
  - rewrite (step_awaiting_idle _ _ _ _ Hp).
    destruct Hinv as (_ & _ & Htimer).
    destruct o as [|ev|r|ms]; try congruence.
    + destruct (idleResolved _); simpl; [congruence|].
      unfold deliver. destruct (subscribed st); simpl; congruence.
    + destruct timer as [remaining|]; [|congruence].
      destruct Htimer as (t & -> & _).
      destruct (remaining <=? ms)%nat; simpl; [|congruence].
      intros [= <-]. by right.
  - rewrite (step_done _ _ _ _ Hp). intros H. apply Hlift, IH. congruence.
Qed.

(** A call rejects only with what made it fail: the error of its rejected
    send request, or the timeout error of its own timeout; without timeout,
    only with the error of the send request. *)
Theorem sendAndWait_rejection_origin (timeout : option nat)
  (trace : list Occurrence) (e : string) :
  phase (sendAndWait timeout trace) = Done (Rejected e) ->
  (SendSettled (Rejected e) ∈ trace \/
   exists t, timeout = Some t /\ e = timeout_error t) /\
  (timeout = None -> SendSettled (Rejected e) ∈ trace).
Proof.
  intros H. apply rejection_origin in H.
  split.
  - destruct H as [H|H]; [by left|right].
    destruct timeout as [t|]; [|done]. exists t. by injection H as <-.
  - intros ->. by destruct H.
Qed.

Lemma sendAndWait_rejection_origin_witness :
  SendSettled (Rejected "connection closed") ∈
    [Invoke; Notification (mkEvent "session.idle" "");
     SendSettled (Rejected "connection closed")].
Proof.
  apply (proj2 (sendAndWait_rejection_origin None
                  [Invoke; Notification (mkEvent "session.idle" "");
                   SendSettled (Rejected "connection closed")]
                  "connection closed" eq_refl) eq_refl).
Defined.

(** When the send request is rejected, the call rejects with that error,
    also when the idle notification had already been delivered, and its
    listener is removed. *)
Theorem sendAndWait_send_rejected (timeout : option nat)
  (stale : list SessionEvent) (pre rest : list Occurrence) (e : string) :
  send_settled pre = false ->
  let st :=
    sendAndWait timeout
      ((Notification <$> stale) ++ Invoke :: pre ++
       SendSettled (Rejected e) :: rest) in
  phase st = Done (Rejected e) /\ subscribed st = false.
Proof.
  intros Hpre st. subst st.
  rewrite sendAndWait_started, foldl_app, (awaiting_send _ _ Hpre). simpl.
  by rewrite (done_stable _ rest _ (Rejected e)).
Qed.

Lemma sendAndWait_send_rejected_witness :
  phase
    (sendAndWait (Some 100)
       [Invoke; Notification (mkEvent "session.idle" "");
        SendSettled (Rejected "closed"); Elapse 500])
  = Done (Rejected "closed").
Proof.
  apply (sendAndWait_send_rejected (Some 100) []
           [Notification (mkEvent "session.idle" "")] [Elapse 500] "closed").
  reflexivity.
Defined.

(** An idle notification delivered while the send request is in flight
    ends the wait as soon as the request is fulfilled: the call resolves
    with the most recent assistant message delivered since the call,
    whatever the timeout. *)
Theorem sendAndWait_idle_in_flight (timeout : option nat)
  (stale : list SessionEvent) (pre rest : list Occurrence)
  (messageId : string) :
  send_settled pre = false ->
  has_idle (events_of pre) = true ->
  phase
    (sendAndWait timeout
       ((Notification <$> stale) ++ Invoke :: pre ++
        SendSettled (Fulfilled messageId) :: rest))
  = Done (Fulfilled (last_assistant (events_of pre))).
Proof.
  intros Hpre Hidle.
  rewrite sendAndWait_started, foldl_app, (awaiting_send _ _ Hpre). simpl.
  unfold step at 2. simpl. unfold after_send. simpl. rewrite Hidle.
  by rewrite (done_stable _ rest _
                (Fulfilled (last_assistant (events_of pre)))).
Qed.

Lemma sendAndWait_idle_in_flight_witness :
  phase
    (sendAndWait (Some 0)
       [Invoke; Notification (mkEvent "assistant.message" "hi");
        Notification (mkEvent "session.idle" "");
        SendSettled (Fulfilled "m1")])
  = Done (Fulfilled (Some (mkEvent "assistant.message" "hi"))).
Proof.
  apply (sendAndWait_idle_in_flight (Some 0) []
           [Notification (mkEvent "assistant.message" "hi");
            Notification (mkEvent "session.idle" "")] [] "m1");
    reflexivity.
Defined.

End Calls.

Section Waiting.
Import Types Session.

Lemma assistant_false_of_idle (e : SessionEvent) :
  is_idle e = true -> is_assistant_message e = false.
Proof.
  intros Hi. destruct (is_assistant_message e) eqn:Ha; [|done].
  apply assistant_not_idle in Ha. congruence.
Qed.

Lemma listener_other (c : Closure) (e : SessionEvent) :
  is_assistant_message e = false -> is_idle e = false -> listener c e = c.
Proof.
  unfold listener, is_assistant_message, is_idle. intros -> ->.
  by destruct (sendStarted c).
Qed.

Lemma deliver_other (st : Waiting) (e : SessionEvent) :
  is_assistant_message e = false -> is_idle e = false -> deliver e st = st.
Proof.
  intros Ha Hi. unfold deliver. rewrite (listener_other _ _ Ha Hi).
  destruct st as [c sub p out]. simpl. by destruct sub.
Qed.

Lemma step_other (timeout : option nat) (st : Waiting) (e : SessionEvent) :
  call_inv timeout st ->
  is_assistant_message e = false -> is_idle e = false ->
  step timeout st (Notification e) = st.
Proof.
  intros (_ & _ & Hphase) Ha Hi.
  destruct (phase st) as [| |timer|r] eqn:Hp.
  - unfold step. rewrite Hp. by apply deliver_other.
  - rewrite (step_awaiting_send _ _ _ Hp). by apply deliver_other.
  - rewrite (step_awaiting_idle _ _ _ _ Hp), (deliver_other _ _ Ha Hi).
    destruct Hphase as (_ & -> & _). done.
  - by rewrite (step_done _ _ _ _ Hp).
Qed.

(** Events that are neither [assistant.message] nor [session.idle] (deltas,
    tool events, errors) make no difference to a call: with or without
    them, at any point, the call ends up in the same state. *)
Theorem sendAndWait_ignores_other_events (timeout : option nat)
  (before after : list Occurrence) (e : SessionEvent) :
  is_assistant_message e = false -> is_idle e = false ->
  sendAndWait timeout (before ++ Notification e :: after) =
    sendAndWait timeout (before ++ after).
Proof.
  intros Ha Hi. unfold sendAndWait. rewrite !foldl_app. simpl.
  rewrite step_other; [done| |done|done].
  apply (call_inv_run timeout before).
Qed.

Lemma sendAndWait_ignores_other_events_witness :
  sendAndWait None
    [Invoke; Notification (mkEvent "assistant.message_delta" "par");
     SendSettled (Fulfilled "m1")] =
  sendAndWait None [Invoke; SendSettled (Fulfilled "m1")].
Proof.
  apply (sendAndWait_ignores_other_events None [Invoke]
           [SendSettled (Fulfilled "m1")]
           (mkEvent "assistant.message_delta" "par")); reflexivity.
Defined.

(** While no idle notification comes and the timer has not run out, the
    call keeps waiting and records the assistant messages. *)
Lemma awaiting_idle_pending (timeout : option nat) (wait : list Occurrence) :
  forall (seen : list Occurrence) (st : Waiting) (timer : option nat),
    phase st = AwaitingIdle timer ->
    subscribed st = true ->
    closure st = mkClosure true false (last_assistant (events_of seen)) ->
    has_idle (events_of wait) = false ->
    in_time timer wait ->
    foldl (step timeout) st wait =
      mkWaiting
        (mkClosure true false (last_assistant (events_of (seen ++ wait))))
        true (AwaitingIdle (timer_after timer wait)) (outbound st).
Proof.
  induction wait as [|o wait IH]; intros seen st timer Hp Hsub Hc Hidle Htime.
  - rewrite app_nil_r. destruct st as [c sub p out]. simpl in *. subst.
    f_equal. f_equal. unfold timer_after. destruct timer; simpl; [|done].
    f_equal. lia.
  - simpl. rewrite (step_awaiting_idle _ _ _ _ Hp).
    replace (seen ++ o :: wait) with ((seen ++ [o]) ++ wait)
      by (by rewrite <- app_assoc).
    destruct o as [|e|r|ms]; simpl in Hidle.
    + rewrite (IH (seen ++ [Invoke]) st timer); try done.
      by rewrite events_of_snoc, app_nil_r.
    + apply orb_false_elim in Hidle as [He Hidle].
      assert (deliver e st =
              mkWaiting
                (mkClosure true false
                   (last_assistant (events_of (seen ++ [Notification e]))))
                true (AwaitingIdle timer) (outbound st)) as Hdeliver.
      { unfold deliver. rewrite Hsub, Hc, Hp, listener_started, He.
        by rewrite events_of_snoc, last_assistant_snoc. }
      rewrite Hdeliver. simpl.
      by rewrite (IH (seen ++ [Notification e]) _ timer).
    + rewrite (IH (seen ++ [SendSettled r]) st timer); try done.
      by rewrite events_of_snoc, app_nil_r.
    + destruct timer as [remaining|]; simpl in Htime.
      * assert ((remaining <=? ms)%nat = false) as ->
          by (apply Nat.leb_gt; lia).
        rewrite (IH (seen ++ [Elapse ms]) _ (Some (remaining - ms)));
          simpl; try done.
        -- unfold timer_after. simpl. do 3 f_equal. lia.
        -- by rewrite events_of_snoc, app_nil_r.
        -- lia.
      * rewrite (IH (seen ++ [Elapse ms]) st None); try done.
        by rewrite events_of_snoc, app_nil_r.
Qed.

(** Within the range of Node's timers the delay is the timeout itself. *)
Lemma timer_delay_in_range (t : nat) :
  (1 <= N.of_nat t <= 2147483647)%N -> timer_delay t = t.
Proof.
  intros [Hlow Hhigh]. unfold timer_delay.
  apply N.ltb_ge in Hlow, Hhigh. by rewrite Hlow, Hhigh.
Qed.

Lemma after_fulfilled_send (timeout : option nat) (stale : list SessionEvent)
  (pre wait : list Occurrence) (messageId : string) :
  send_settled pre = false ->
  has_idle (events_of (pre ++ wait)) = false ->
  in_time (timer_delay <$> timeout) wait ->
  sendAndWait timeout
    ((Notification <$> stale) ++ Invoke :: pre ++
     SendSettled (Fulfilled messageId) :: wait) =
    mkWaiting
      (mkClosure true false (last_assistant (events_of (pre ++ wait))))
      true (AwaitingIdle (timer_after (timer_delay <$> timeout) wait))
      ["session.send"].
Proof.
  intros Hpre Hidle Htime.
  rewrite events_of_app, has_idle_app in Hidle.
  apply orb_false_elim in Hidle as [Hidle1 Hidle2].
  rewrite sendAndWait_started, foldl_app, (awaiting_send _ _ Hpre).
  simpl. rewrite Hidle1.
  change (step timeout _ (SendSettled (Fulfilled messageId)))
    with (mkWaiting (mkClosure true false (last_assistant (events_of pre)))
            true (AwaitingIdle (timer_delay <$> timeout)) ["session.send"]).
  rewrite (awaiting_idle_pending timeout wait pre _ (timer_delay <$> timeout));
    try done.
Qed.

(** When the send request is fulfilled and the idle notification is then
    delivered before the timer of the call has run out (or there is no
    timeout), the call resolves with the most recent assistant message
    delivered between the call and the idle notification, or with undefined
    when there was none.  The timer runs for [timer_delay timeout] from the
    reply to the send request: the timeout, or 1 ms when the timeout is
    below 1 or above 2^31 - 1. *)
Theorem sendAndWait_resolves_on_idle (timeout : option nat)
  (stale : list SessionEvent) (pre wait rest : list Occurrence)
  (messageId : string) (idle : SessionEvent) :
  send_settled pre = false ->
  has_idle (events_of (pre ++ wait)) = false ->
  in_time (timer_delay <$> timeout) wait ->
  is_idle idle = true ->
  let st :=
    sendAndWait timeout
      ((Notification <$> stale) ++ Invoke :: pre ++
       SendSettled (Fulfilled messageId) :: wait ++
       Notification idle :: rest) in
  phase st = Done (Fulfilled (last_assistant (events_of (pre ++ wait)))) /\
  subscribed st = false.
Proof.
  intros Hpre Hidle Htime Hi st. subst st.
  pose proof (after_fulfilled_send timeout stale pre wait messageId
                Hpre Hidle Htime) as Hwait.
  unfold sendAndWait in *.
  replace ((Notification <$> stale) ++ Invoke :: pre ++
           SendSettled (Fulfilled messageId) :: wait ++
           Notification idle :: rest)
    with (((Notification <$> stale) ++ Invoke :: pre ++
           SendSettled (Fulfilled messageId) :: wait) ++
          Notification idle :: rest).
  2: { rewrite <- !app_assoc. simpl. by rewrite <- !app_assoc. }
  rewrite foldl_app, Hwait. cbn [foldl].
  rewrite (step_awaiting_idle timeout
             (timer_after (timer_delay <$> timeout) wait)
             (mkWaiting
                (mkClosure true false
                   (last_assistant (events_of (pre ++ wait))))
                true (AwaitingIdle (timer_after (timer_delay <$> timeout) wait))
                ["session.send"])
             (Notification idle) eq_refl).
  unfold deliver. simpl.
  rewrite listener_started, Hi, (assistant_false_of_idle idle Hi). simpl.
  by rewrite (done_stable _ rest _
                (Fulfilled (last_assistant (events_of (pre ++ wait))))).
Qed.

End Waiting.

Section WaitingResults.
Import Types Session.

Lemma sendAndWait_resolves_on_idle_witness :
  phase
    (sendAndWait (Some 100)
       [Invoke; SendSettled (Fulfilled "m1");
        Notification (mkEvent "assistant.message" "4"); Elapse 99;
        Notification (mkEvent "session.idle" ""); Elapse 500])
  = Done (Fulfilled (Some (mkEvent "assistant.message" "4"))).
Proof.
  apply (sendAndWait_resolves_on_idle (Some 100) [] []
           [Notification (mkEvent "assistant.message" "4"); Elapse 99]
           [Elapse 500] "m1" (mkEvent "session.idle" ""));
    [reflexivity | reflexivity | vm_compute; lia | reflexivity].
Defined.

(** After the send request was fulfilled, the call stays pending, with its
    listener subscribed, for as long as no idle notification is delivered
    and the timer of the call (set to [timer_delay timeout] at the reply to
    the send request) has not run out; without a timeout that is for ever,
    however much time passes. *)
Theorem sendAndWait_keeps_waiting (timeout : option nat)
  (stale : list SessionEvent) (pre wait : list Occurrence)
  (messageId : string) :
  send_settled pre = false ->
  has_idle (events_of (pre ++ wait)) = false ->
  in_time (timer_delay <$> timeout) wait ->
  let st :=
    sendAndWait timeout
      ((Notification <$> stale) ++ Invoke :: pre ++
       SendSettled (Fulfilled messageId) :: wait) in
  phase st = AwaitingIdle (timer_after (timer_delay <$> timeout) wait) /\
  subscribed st = true /\
  lastAssistantMessage (closure st) = last_assistant (events_of (pre ++ wait)).
Proof.
  intros Hpre Hidle Htime st. subst st.
  by rewrite (after_fulfilled_send timeout stale pre wait messageId
                Hpre Hidle Htime).
Qed.

Lemma sendAndWait_keeps_waiting_witness :
  phase
    (sendAndWait None
       [Invoke; SendSettled (Fulfilled "m1"); Elapse 1000;
        Notification (mkEvent "assistant.message" "still working");
        Elapse 1000])
  = AwaitingIdle None.
Proof.
  apply (sendAndWait_keeps_waiting None [] []
           [Elapse 1000;
            Notification (mkEvent "assistant.message" "still working");
            Elapse 1000] "m1"); [reflexivity | reflexivity | exact I].
Defined.

End WaitingResults.

(** ** Handlers run one after the other *)

Section Sequence.
Import Types Session.
Context {World : Type}.
Variable run_handler :
  JSSet.HandlerId -> SessionEvent -> World -> HandlerRun World.

Lemma dispatch_from_sequence (event : SessionEvent) (hs : JSSet.t)
  (fuel : nat) :
  forall (idx : nat) (w : World) log,
    (forall h, h ∈ JSSet.values hs -> quiet run_handler h) ->
    length hs - idx < fuel ->
    exists d,
      dispatch_from run_handler fuel idx event hs w log = Some d /\
      world_end d =
        foldl (λ w h, world_after (run_handler h event w)) w
          (JSSet.values (drop idx hs)).
Proof.
  induction fuel as [|fuel IH]; intros idx w log Hquiet Hfuel; [lia|].
  simpl. destruct (hs !! idx) as [[h|]|] eqn:Hidx.
  - rewrite guarded_None.
    assert (h ∈ JSSet.values hs) as Hin.
    { apply elem_of_values. by eapply list_elem_of_lookup_2. }
    rewrite (Hquiet h Hin event w). unfold apply_calls. simpl.
    apply lookup_lt_Some in Hidx as Hlt.
    destruct (IH (S idx) (world_after (run_handler h event w))
                (log ++ [(h, event)]) Hquiet) as (d & Hd & Hw); [lia|].
    exists d. split; [done|]. rewrite Hw, (drop_S _ _ _ Hidx). done.
  - apply lookup_lt_Some in Hidx as Hlt.
    destruct (IH (S idx) w log Hquiet) as (d & Hd & Hw); [lia|].
    exists d. split; [done|]. by rewrite Hw, (drop_S _ _ _ Hidx).
  - apply lookup_ge_None in Hidx. eexists. split; [done|]. simpl.
    by rewrite drop_ge.
Qed.

(** The handlers of a dispatch run one after the other in registration
    order, each on the state the one before it left, whether that one
    returned or threw: the state at the end is the state at the start taken
    through every subscriber in turn. *)
Theorem dispatchEvent_runs_in_sequence (registrations : list SetCall)
  (event : SessionEvent) (s : CopilotSession) (w : World) :
  eventHandlers s = apply_calls registrations JSSet.empty ->
  (forall h, h ∈ subscribers_in_order registrations ->
     quiet run_handler h) ->
  exists d,
    _dispatchEvent run_handler (S (length (eventHandlers s))) event s w
      = Some d /\
    world_end d =
      foldl (λ w h, world_after (run_handler h event w)) w
        (subscribers_in_order registrations).
Proof.
  intros Hs Hquiet.
  assert (JSSet.values (eventHandlers s) = subscribers_in_order registrations)
    as Hvalues.
  { rewrite Hs. by rewrite values_apply_calls. }
  unfold _dispatchEvent.
  destruct (dispatch_from_sequence event (eventHandlers s)
              (S (length (eventHandlers s))) 0 w []) as (d & Hd & Hw).
  { intros h Hh. apply Hquiet. by rewrite <- Hvalues. }
  { lia. }
  exists d. split; [done|]. by rewrite Hw, drop_0, Hvalues.
Qed.

End Sequence.

Section SequenceWitness.
Import Types Session.

Lemma dispatchEvent_runs_in_sequence_witness :
  let run := λ (h : JSSet.HandlerId) (_ : SessionEvent) (w : list nat),
               mkRun (w ++ [h]) []
                 (if Nat.eqb h 3 then Some "boom" else None) in
  let s := on 5 (on 3 (new "s1" (mkConnection (λ _ _, NeverSettles)))) in
  exists d,
    _dispatchEvent run (S (length (eventHandlers s)))
      (mkEvent "session.idle" "") s [] = Some d /\
    world_end d = [3; 5].
Proof.
  intros run s.
  apply (dispatchEvent_runs_in_sequence run [CallOn 3; CallOn 5]
           (mkEvent "session.idle" "") s [] eq_refl).
  intros h _ e w. reflexivity.
Defined.

End SequenceWitness.
